(** * A multi-channel 2D convolution layer (reference model), verified

    Shallow embedding of [reference_model/convolution_py.py]: the class
    [ConvolutionLayer] with its constructor [__init__], the helper
    [_calculate_padding_amount] and the forward pass [forward], the printer
    [print_image_py] and the demo under [__main__].

    Modelling conventions.
    - Python [int] is [Z]; [//] is [Z.div] (both round towards minus
      infinity and the remainder takes the sign of the divisor).
    - Python [float] is IEEE 754 binary64, embedded as Rocq's primitive
      [float]; [+] and [*] on tensor cells are the primitive operations.
    - A Python list is a [list]; indexing follows Python: a negative index
      counts from the end, an index out of range raises [IndexError].
    - [raise] is the [Err] constructor of the error monad [result]; every
      [ValueError] carries the message of its raise site.
    - The two true divisions on integers ([input_height / self.stride] and
      [... / 2]) are taken in [Q]. Python rounds such a quotient correctly to
      binary64; for list lengths (below 2^53) and strides below 2^1000 the
      subsequent [math.ceil] and [int] see the same integer as on the exact
      quotient, which is the range this development speaks about.
    - [forward] is embedded twice: on values (nested lists), where the
      arithmetic and the shapes are proved, and on an object store (lists and
      the engine as objects reached by reference), where its effects are
      proved; [forward_st_sim] ties the two together.
    - Standard output is a list of pieces: literal text, and numbers tagged
      with the format they are printed in; [print_image_py] and the demo
      under [__main__] return what they write. *)

From Stdlib Require Import ZArith QArith Qround Floats Lia Bool.
From Stdlib Require String.
From stdpp Require Import base tactics option list list_numbers.
Import String.StringSyntax.

Local Open Scope Z_scope.

(** ** Exceptions and the error monad *)

(** One constructor per [raise ValueError(...)] of the source, in source
    order; the f-string messages keep their two interpolated numbers
    (expected, got). *)
Inductive message : Type :=
  | KernelSizeNotPositive
  | StrideNotPositive
  | PaddingModeNotZeroOrOne
  | InputChannelsNotPositive
  | OutputChannelsNotPositive
  | KernelWeightsEmpty
  | OuterDimensionMismatch (expected got : Z)
  | InputChannelsDimensionMismatch (expected got : Z)
  | HeightDimensionMismatch (expected got : Z)
  | WidthDimensionMismatch (expected got : Z)
  | InputImageEmpty
  | InputImageChannelsMismatch (expected got : Z)
  | InvalidPaddingModeInternalState
  | OutputDimensionsNonPositive.

Inductive exn : Type :=
  | ValueError (m : message)
  | IndexError
  | ZeroDivisionError
  | TypeError.

Inductive result (A : Type) : Type :=
  | Ok (a : A)
  | Err (e : exn).
Arguments Ok {A} a.
Arguments Err {A} e.

#[global] Instance result_ret : MRet result := fun A a => Ok a.
#[global] Instance result_bind : MBind result := fun A B f m =>
  match m with
  | Ok a => f a
  | Err e => Err e
  end.

Definition raise {A} (e : exn) : result A := Err e.

Definition is_Ok {A} (r : result A) : bool :=
  match r with Ok _ => true | Err _ => false end.

(** The spec's two error kinds are both Python [ValueError]s: [ConfigError]
    when raised by the constructor, [ShapeError] when raised by [forward]. *)
Definition is_ValueError {A} (r : result A) : bool :=
  match r with Err (ValueError _) => true | _ => false end.

(** [for x in l: s = body(s, x)], leaving at the first exception. *)
Fixpoint foldM {S A : Type} (body : S -> A -> result S) (l : list A) (s : S)
  : result S :=
  match l with
  | [] => Ok s
  | x :: l' => s' ← body s x; foldM body l' s'
  end.

(** [for x in l: body(x)] for a body that only checks. *)
Definition forM_ {A : Type} (body : A -> result unit) (l : list A) : result unit :=
  foldM (fun _ x => body x) l tt.

(** ** Python built-ins used by the source *)

Definition len {A} (l : list A) : Z := Z.of_nat (length l).

(** [range(n)]: 0, 1, ..., n-1; empty when [n <= 0]. *)
Definition range (n : Z) : list Z := seqZ 0 n.

(** Truth value of a list: [not l] holds exactly for the empty list. *)
Definition truthy {A} (l : list A) : bool :=
  match l with [] => false | _ :: _ => true end.

(** [l[i]] *)
Definition getitem {A} (l : list A) (i : Z) : result A :=
  let j := if i <? 0 then i + len l else i in
  if (j <? 0) || (len l <=? j) then raise IndexError
  else match l !! Z.to_nat j with
       | Some x => Ok x
       | None => raise IndexError
       end.

(** [l[i] = v], on a list held by value *)
Definition setitem {A} (l : list A) (i : Z) (v : A) : result (list A) :=
  let j := if i <? 0 then i + len l else i in
  if (j <? 0) || (len l <=? j) then raise IndexError
  else Ok (<[Z.to_nat j := v]> l).

(** [a // b] *)
Definition floordiv (a b : Z) : result Z :=
  if b =? 0 then raise ZeroDivisionError else Ok (a / b).

(** [a / b] on integers *)
Definition truediv (a b : Z) : result Q :=
  if b =? 0 then raise ZeroDivisionError else Ok (Qdiv (inject_Z a) (inject_Z b)).

(** [math.ceil] *)
Definition math_ceil (q : Q) : Z := Qceiling q.

(** [int(x)] on a float: truncation towards zero *)
Definition int_of (q : Q) : Z := Z.quot (Qnum q) (Z.pos (Qden q)).

(** ** Tensors *)

Abbreviation row := (list float).
Abbreviation channel := (list row).
Abbreviation tensor := (list channel).
Abbreviation weights := (list (list (list (list float)))).

(** ** The class [ConvolutionLayer] *)

(** The attributes of an instance. The weights are a nested list when the
    engine is taken by value, and a reference when it lives in the store of
    section "The object store". *)
Record Layer (W : Type) : Type := {
  kernel_size : Z;
  stride : Z;
  padding_mode : Z;
  input_channels : Z;
  output_channels : Z;
  kernel_weights : W
}.
Arguments kernel_size {W} _.
Arguments stride {W} _.
Arguments padding_mode {W} _.
Arguments input_channels {W} _.
Arguments output_channels {W} _.
Arguments kernel_weights {W} _.

Abbreviation ConvolutionLayer := (Layer weights).

(** The shape validation of the kernel weights: three nested [for] loops,
    each raising at the first length that differs. *)
Definition check_k_row (self : ConvolutionLayer) (k_row : list float) : result unit :=
  if negb (len k_row =? kernel_size self)
  then raise (ValueError (WidthDimensionMismatch (kernel_size self) (len k_row)))
  else Ok tt.

Definition check_ic_weights (self : ConvolutionLayer) (ic_weights : list (list float))
  : result unit :=
  if negb (len ic_weights =? kernel_size self)
  then raise (ValueError (HeightDimensionMismatch (kernel_size self) (len ic_weights)))
  else forM_ (check_k_row self) ic_weights.

Definition check_oc_weights (self : ConvolutionLayer)
  (oc_weights : list (list (list float))) : result unit :=
  if negb (len oc_weights =? input_channels self)
  then raise (ValueError (InputChannelsDimensionMismatch (input_channels self) (len oc_weights)))
  else forM_ (check_ic_weights self) oc_weights.

(** [ConvolutionLayer.__init__]. The arguments are integers already, so the
    [isinstance(_, int)] conjuncts hold. *)
Definition __init__ (kernel_size stride padding_mode input_channels output_channels : Z)
  (initial_kernel_weights : weights) : result ConvolutionLayer :=
  if negb (0 <? kernel_size) then raise (ValueError KernelSizeNotPositive)
  else if negb (0 <? stride) then raise (ValueError StrideNotPositive)
  else if negb ((padding_mode =? 0) || (padding_mode =? 1))
  then raise (ValueError PaddingModeNotZeroOrOne)
  else if negb (0 <? input_channels) then raise (ValueError InputChannelsNotPositive)
  else if negb (0 <? output_channels) then raise (ValueError OutputChannelsNotPositive)
  else if negb (truthy initial_kernel_weights) then raise (ValueError KernelWeightsEmpty)
  else
    let self := {| kernel_size := kernel_size;
                   stride := stride;
                   padding_mode := padding_mode;
                   input_channels := input_channels;
                   output_channels := output_channels;
                   kernel_weights := initial_kernel_weights |} in
    if negb (len initial_kernel_weights =? output_channels)
    then raise (ValueError (OuterDimensionMismatch output_channels
                              (len initial_kernel_weights)))
    else
      _ ← forM_ (check_oc_weights self) initial_kernel_weights;
      Ok self.

(** [ConvolutionLayer._calculate_padding_amount] *)
Definition _calculate_padding_amount {W} (self : Layer W)
  (input_dim target_output_dim : Z) : Z :=
  let padding :=
    Qdiv (inject_Z ((target_output_dim - 1) * stride self + kernel_size self - input_dim))
         (inject_Z 2) in
  Z.max 0 (int_of padding).

(** ** The forward pass *)

(** The local variables of [forward] that its loop nest reads. *)
Record locals : Type := {
  input_height : Z;
  input_width : Z;
  padding_h : Z;
  padding_w : Z;
  output_height : Z;
  output_width : Z
}.

(** Lines 60-70: the output dimensions and the top/left padding amounts. *)
Definition derive_dims {W} (self : Layer W) (input_height input_width : Z)
  : result locals :=
  if padding_mode self =? 0 then
    qh ← floordiv (input_height - kernel_size self) (stride self);
    qw ← floordiv (input_width - kernel_size self) (stride self);
    Ok {| input_height := input_height; input_width := input_width;
          padding_h := 0; padding_w := 0;
          output_height := qh + 1; output_width := qw + 1 |}
  else if padding_mode self =? 1 then
    rh ← truediv input_height (stride self);
    rw ← truediv input_width (stride self);
    let output_height := math_ceil rh in
    let output_width := math_ceil rw in
    Ok {| input_height := input_height; input_width := input_width;
          padding_h := _calculate_padding_amount self input_height output_height;
          padding_w := _calculate_padding_amount self input_width output_width;
          output_height := output_height; output_width := output_width |}
  else raise (ValueError InvalidPaddingModeInternalState).

Section loop_nest.
Variable self : ConvolutionLayer.
Variable input_image : tensor.
Variable lv : locals.

(** Lines 90-92: the sample read at [(in_c, h_idx, w_idx)], zero outside
    the bounds taken from the first channel. *)
Definition pixel_value (in_c h_idx w_idx : Z) : result float :=
  if (0 <=? h_idx) && (h_idx <? input_height lv)
     && ((0 <=? w_idx) && (w_idx <? input_width lv))
  then
    c ← getitem input_image in_c;
    r ← getitem c h_idx;
    getitem r w_idx
  else Ok 0%float.

(** [self.kernel_weights[out_c][in_c][k_h][k_w]] *)
Definition weight (out_c in_c k_h k_w : Z) : result float :=
  w1 ← getitem (kernel_weights self) out_c;
  w2 ← getitem w1 in_c;
  w3 ← getitem w2 k_h;
  getitem w3 k_w.

(** Lines 87-94: the body of the innermost loop. *)
Definition accumulate (out_c out_h out_w in_c k_h : Z) (current_sum : float) (k_w : Z)
  : result float :=
  let h_idx := out_h * stride self + k_h - padding_h lv in
  let w_idx := out_w * stride self + k_w - padding_w lv in
  p ← pixel_value in_c h_idx w_idx;
  w ← weight out_c in_c k_h k_w;
  Ok (current_sum + p * w)%float.

(** Lines 83-94: [current_sum] for one output cell. *)
Definition cell_sum (out_c out_h out_w : Z) : result float :=
  foldM (fun current_sum in_c =>
    foldM (fun current_sum k_h =>
      foldM (accumulate out_c out_h out_w in_c k_h)
            (range (kernel_size self)) current_sum)
      (range (kernel_size self)) current_sum)
    (range (input_channels self)) 0%float.

(** Line 95: [output_image[out_c][out_h][out_w] = current_sum]. *)
Definition store (output_image : tensor) (out_c out_h out_w : Z) (v : float)
  : result tensor :=
  c ← getitem output_image out_c;
  r ← getitem c out_h;
  r' ← setitem r out_w v;
  c' ← setitem c out_h r';
  setitem output_image out_c c'.

(** Lines 75-78: the zero-filled output. *)
Definition zeros : tensor :=
  (fun _ => (fun _ => (fun _ => 0%float) <$> range (output_width lv))
              <$> range (output_height lv))
    <$> range (output_channels self).

(** Lines 80-95. *)
Definition fill (output_image : tensor) : result tensor :=
  foldM (fun output_image out_c =>
    foldM (fun output_image out_h =>
      foldM (fun output_image out_w =>
        current_sum ← cell_sum out_c out_h out_w;
        store output_image out_c out_h out_w current_sum)
        (range (output_width lv)) output_image)
      (range (output_height lv)) output_image)
    (range (output_channels self)) output_image.
End loop_nest.

(** [ConvolutionLayer.forward]. On values, [input_image[0]] and
    [input_image[0][0]] are the same lists each time the source writes them;
    they are bound once, as [c0] and [r0]. *)
Definition forward (self : ConvolutionLayer) (input_image : tensor) : result tensor :=
  if negb (truthy input_image) then raise (ValueError InputImageEmpty)
  else
    c0 ← getitem input_image 0;
    if negb (truthy c0) then raise (ValueError InputImageEmpty)
    else
      r0 ← getitem c0 0;
      if negb (truthy r0) then raise (ValueError InputImageEmpty)
      else if negb (len input_image =? input_channels self)
      then raise (ValueError (InputImageChannelsMismatch (input_channels self)
                                (len input_image)))
      else
        lv ← derive_dims self (len c0) (len r0);
        if (output_height lv <=? 0) || (output_width lv <=? 0)
        then raise (ValueError OutputDimensionsNonPositive)
        else fill self input_image lv (zeros self lv).


(** ** The object store

    The same code once more, this time on Python's object model: a list is
    an object in a store and is passed around by reference, an element of a
    list is a float or a reference, and the engine is an object holding its
    attributes. This is the model in which "does not mutate" can be said. *)

Inductive val : Type :=
  | VFloat (x : float)
  | VRef (l : nat).

Inductive obj : Type :=
  | OList (vs : list val)
  | OLayer (attrs : Layer val).

(** Objects by address; a new object goes to the end. *)
Abbreviation heap := (list obj).

(** A computation on the store; on an exception the store stays as it was
    when the exception was raised. *)
Definition M (A : Type) : Type := heap -> result A * heap.

#[global] Instance M_ret : MRet M := fun A a h => (Ok a, h).
#[global] Instance M_bind : MBind M := fun A B f m h =>
  match m h with
  | (Ok a, h') => f a h'
  | (Err e, h') => (Err e, h')
  end.

Definition raise_st {A} (e : exn) : M A := fun h => (Err e, h).

Definition lift {A} (r : result A) : M A := fun h => (r, h).

(** A fresh list object. *)
Definition alloc (vs : list val) : M val :=
  fun h => (Ok (VRef (length h)), h ++ [OList vs]).

(** The list behind a value; anything else is a [TypeError]. *)
Definition deref (v : val) : M (list val) :=
  fun h =>
    match v with
    | VRef l =>
        match h !! l with
        | Some (OList vs) => (Ok vs, h)
        | _ => (Err TypeError, h)
        end
    | VFloat _ => (Err TypeError, h)
    end.

(** [self.a] *)
Definition attr {A} (self : val) (a : Layer val -> A) : M A :=
  fun h =>
    match self with
    | VRef l =>
        match h !! l with
        | Some (OLayer attrs) => (Ok (a attrs), h)
        | _ => (Err TypeError, h)
        end
    | VFloat _ => (Err TypeError, h)
    end.

(** [v[i]] *)
Definition getitem_st (v : val) (i : Z) : M val :=
  vs ← deref v; lift (getitem vs i).

(** The list object behind [v] gets new contents. *)
Definition write (v : val) (vs : list val) : M unit :=
  fun h =>
    match v with
    | VRef l => (Ok tt, <[l := OList vs]> h)
    | VFloat _ => (Err TypeError, h)
    end.

(** [v[i] = x]: the list object behind [v] is updated in place. *)
Definition setitem_st (v : val) (i : Z) (x : val) : M unit :=
  vs ← deref v;
  vs' ← lift (setitem vs i x);
  write v vs'.

(** [len(v)] *)
Definition len_st (v : val) : M Z := vs ← deref v; mret (len vs).

(** the truth value of [v] *)
Definition truthy_st (v : val) : M bool := vs ← deref v; mret (truthy vs).

(** the float that arithmetic expects *)
Definition float_of (v : val) : M float :=
  match v with
  | VFloat x => mret x
  | VRef _ => raise_st TypeError
  end.

Fixpoint foldM_st {S A : Type} (body : S -> A -> M S) (l : list A) (s : S) : M S :=
  match l with
  | [] => mret s
  | x :: l' => s' ← body s x; foldM_st body l' s'
  end.

(** a list comprehension [[body(x) for x in l]] *)
Fixpoint mapM_st {A B : Type} (body : A -> M B) (l : list A) : M (list B) :=
  match l with
  | [] => mret []
  | x :: l' => y ← body x; ys ← mapM_st body l'; mret (y :: ys)
  end.

Section loop_nest_st.
Variable self : val.
Variable input_image : val.
Variable lv : locals.
Variable output_image : val.

Definition pixel_value_st (in_c h_idx w_idx : Z) : M float :=
  if (0 <=? h_idx) && (h_idx <? input_height lv)
     && ((0 <=? w_idx) && (w_idx <? input_width lv))
  then
    c ← getitem_st input_image in_c;
    r ← getitem_st c h_idx;
    x ← getitem_st r w_idx;
    float_of x
  else mret 0%float.

Definition weight_st (out_c in_c k_h k_w : Z) : M float :=
  ws ← attr self kernel_weights;
  w1 ← getitem_st ws out_c;
  w2 ← getitem_st w1 in_c;
  w3 ← getitem_st w2 k_h;
  x ← getitem_st w3 k_w;
  float_of x.

Definition accumulate_st (out_c out_h out_w in_c k_h : Z) (current_sum : float) (k_w : Z)
  : M float :=
  s ← attr self stride;
  let h_idx := out_h * s + k_h - padding_h lv in
  s' ← attr self stride;
  let w_idx := out_w * s' + k_w - padding_w lv in
  p ← pixel_value_st in_c h_idx w_idx;
  w ← weight_st out_c in_c k_h k_w;
  mret (current_sum + p * w)%float.

Definition cell_sum_st (out_c out_h out_w : Z) : M float :=
  ic ← attr self input_channels;
  foldM_st (fun current_sum in_c =>
    k ← attr self kernel_size;
    foldM_st (fun current_sum k_h =>
      k' ← attr self kernel_size;
      foldM_st (accumulate_st out_c out_h out_w in_c k_h) (range k') current_sum)
      (range k) current_sum)
    (range ic) 0%float.

(** [output_image[out_c][out_h][out_w] = current_sum]: the row object is
    fetched through two reads and written in place. *)
Definition store_st (out_c out_h out_w : Z) (v : float) : M unit :=
  c ← getitem_st output_image out_c;
  r ← getitem_st c out_h;
  setitem_st r out_w (VFloat v).

Definition fill_st : M unit :=
  oc ← attr self output_channels;
  foldM_st (fun _ out_c =>
    foldM_st (fun _ out_h =>
      foldM_st (fun _ out_w =>
        current_sum ← cell_sum_st out_c out_h out_w;
        store_st out_c out_h out_w current_sum)
        (range (output_width lv)) tt)
      (range (output_height lv)) tt)
    (range oc) tt.
End loop_nest_st.

(** The three nested comprehensions of lines 75-78: every row and every
    channel is a list object of its own. *)
Definition zeros_st (self : val) (lv : locals) : M val :=
  oc ← attr self output_channels;
  cs ← mapM_st (fun _ =>
          rs ← mapM_st (fun _ => alloc ((fun _ => VFloat 0) <$> range (output_width lv)))
                       (range (output_height lv));
          alloc rs)
        (range oc);
  alloc cs.

(** [ConvolutionLayer.forward] on the store. Every [input_image[0]] of the
    source is a read of its own. Lines 57-70 read [self.padding_mode],
    [self.kernel_size] and [self.stride] and write nothing: they run on the
    attributes as the engine object has them at that point. *)
Definition forward_st (self : val) (input_image : val) : M val :=
  b ← truthy_st input_image;
  if negb b then raise_st (ValueError InputImageEmpty)
  else
    c0 ← getitem_st input_image 0;
    b0 ← truthy_st c0;
    if negb b0 then raise_st (ValueError InputImageEmpty)
    else
      c0' ← getitem_st input_image 0;
      r0 ← getitem_st c0' 0;
      b1 ← truthy_st r0;
      if negb b1 then raise_st (ValueError InputImageEmpty)
      else
        n ← len_st input_image;
        ic ← attr self input_channels;
        if negb (n =? ic)
        then
          ic' ← attr self input_channels;
          n' ← len_st input_image;
          raise_st (ValueError (InputImageChannelsMismatch ic' n'))
        else
          c1 ← getitem_st input_image 0;
          input_height ← len_st c1;
          c2 ← getitem_st input_image 0;
          r2 ← getitem_st c2 0;
          input_width ← len_st r2;
          attrs ← attr self id;
          lv ← lift (derive_dims attrs input_height input_width);
          if (output_height lv <=? 0) || (output_width lv <=? 0)
          then raise_st (ValueError OutputDimensionsNonPositive)
          else
            output_image ← zeros_st self lv;
            _ ← fill_st self input_image lv output_image;
            mret output_image.

(** *** Reading nested lists back out of the store *)

Definition read_list (h : heap) (v : val) : option (list val) :=
  match v with
  | VRef l => match h !! l with Some (OList vs) => Some vs | _ => None end
  | VFloat _ => None
  end.

Definition read_float (v : val) : option float :=
  match v with VFloat x => Some x | VRef _ => None end.

Definition read_row (h : heap) (v : val) : option row :=
  vs ← read_list h v; mapM read_float vs.

Definition read_channel (h : heap) (v : val) : option channel :=
  vs ← read_list h v; mapM (read_row h) vs.

Definition read_tensor (h : heap) (v : val) : option tensor :=
  vs ← read_list h v; mapM (read_channel h) vs.

Definition read_weights (h : heap) (v : val) : option weights :=
  vs ← read_list h v; mapM (read_tensor h) vs.

(** The engine behind [self], its weights read out by value. *)
Definition read_layer (h : heap) (self : val) : option ConvolutionLayer :=
  match self with
  | VRef l =>
      match h !! l with
      | Some (OLayer a) =>
          ws ← read_weights h (kernel_weights a);
          Some {| kernel_size := kernel_size a; stride := stride a;
                  padding_mode := padding_mode a;
                  input_channels := input_channels a;
                  output_channels := output_channels a;
                  kernel_weights := ws |}
      | _ => None
      end
  | VFloat _ => None
  end.

(** *** Putting nested lists into the store *)

Definition alloc_row (r : row) : M val := alloc (VFloat <$> r).

Definition alloc_channel (c : channel) : M val :=
  rs ← mapM_st alloc_row c; alloc rs.

Definition alloc_tensor (t : tensor) : M val :=
  cs ← mapM_st alloc_channel t; alloc cs.

Definition alloc_weights (ws : weights) : M val :=
  ts ← mapM_st alloc_tensor ws; alloc ts.

(** The engine object for a layer taken by value. *)
Definition alloc_obj (o : obj) : M val :=
  fun h => (Ok (VRef (length h)), h ++ [o]).

Definition alloc_layer (self : ConvolutionLayer) : M val :=
  ws ← alloc_weights (kernel_weights self);
  alloc_obj (OLayer {| kernel_size := kernel_size self; stride := stride self;
                       padding_mode := padding_mode self;
                       input_channels := input_channels self;
                       output_channels := output_channels self;
                       kernel_weights := ws |}).

(** One call of [forward] in a store that holds the engine and the input. *)
Definition call_forward (self : ConvolutionLayer) (t : tensor) : M (val * val * val) :=
  s ← alloc_layer self;
  i ← alloc_tensor t;
  o ← forward_st s i;
  mret (s, i, o).

(** ** Printing: [print_image_py] *)

Delimit Scope string_scope with string.
Bind Scope string_scope with String.string.

(** What reaches standard output, piece by piece: a literal string, an
    integer interpolated by an f-string ([{n}]), a float interpolated with a
    fixed-point format ([{val:8.2f}] is [Fixed 8 2 val]), the text of a
    caught [ValueError] ([{e}]), and the line terminator. A Python [str]
    built by an f-string is the list of its pieces. *)
Inductive piece : Type :=
  | Text (s : String.string)
  | Int (n : Z)
  | Fixed (width precision : Z) (val : float)
  | Msg (e : message)
  | Newline.

Abbreviation str := (list piece).

(** [print(s)] and [print(s, end="")] *)
Definition print (s : str) : list piece := s ++ [Newline].
Definition print_end (s : str) : list piece := s.

(** [enumerate(l)] *)
Definition enumerate {A} (l : list A) : list (Z * A) :=
  imap (fun i x => (Z.of_nat i, x)) l.

(** Lines 114-121: one row. *)
Definition print_row (row_data : row) : list piece :=
  print_end [Text "  "]
  ++ (if negb (truthy row_data) then print [Text "Empty row."]
      else (row_data ≫= fun val => print_end [Fixed 8 2 val]) ++ print []).

(** Lines 109-122: one channel. *)
Definition print_channel (c_idx : Z) (channel_data : channel) : list piece :=
  print [Text "Channel "; Int c_idx; Text ":"]
  ++ (if negb (truthy channel_data) then print [Text "  Empty channel."]
      else (channel_data ≫= print_row) ++ print []).

(** [print_image_py]. The two indexings of lines 105-106 are the only
    operations that can raise, and they come before the first [print] of the
    non-empty case, so a call either raises having written nothing or returns
    what it wrote. *)
Definition print_image_py (image : tensor) (label : str) : result (list piece) :=
  if negb (truthy image) then Ok (print (label ++ [Text " is empty."]))
  else
    let channels := len image in
    height ← (if 0 <? channels then c0 ← getitem image 0; Ok (len c0) else Ok 0);
    width ← (if 0 <? height
             then c0 ← getitem image 0; r0 ← getitem c0 0; Ok (len r0)
             else Ok 0);
    Ok (print (label ++ [Text " (Channels: "; Int channels;
                         Text ", Height: "; Int height;
                         Text ", Width: "; Int width; Text ")"])
        ++ (enumerate image ≫= fun '(c_idx, channel_data) =>
              print_channel c_idx channel_data)).

(** ** The demo under [__main__] *)

(** [float(n)] for an integer [0 <= n < 2^63]: the nearest binary64 number. *)
Definition float_of_int (n : Z) : float := PrimFloat.of_uint63 (Uint63.of_Z n).

(** [a / n] for a float [a] and an integer [n] in the same range. *)
Definition float_truediv (a : float) (n : Z) : result float :=
  if n =? 0 then raise ZeroDivisionError else Ok (a / float_of_int n)%float.

Module Main.
Section constants.

(** Lines 126-133. The demo fixes these constants to 3, 1, 3, 1, 32 and 32;
    they are kept as parameters here, and [__main__] below is the demo with
    the values of the source. *)
Variables KERNEL_SIZE STRIDE INPUT_CHANNELS OUTPUT_CHANNELS INPUT_HEIGHT INPUT_WIDTH : Z.

Definition PADDING_MODE_VALID : Z := 0.
Definition PADDING_MODE_SAME : Z := 1.

(** Lines 142-148. *)
Definition averaging (avg_kernel_val : float) : weights :=
  (fun _ => (fun _ => (fun _ => (fun _ => avg_kernel_val)
                                  <$> range KERNEL_SIZE)
                        <$> range KERNEL_SIZE)
              <$> range INPUT_CHANNELS)
    <$> range OUTPUT_CHANNELS.

(** Lines 150-155. The lists built by the comprehension above are distinct
    objects, so the assignment changes [kernel_weights[0]] only. *)
Definition centre_tap (kernel_weights : weights) : result weights :=
  if (1 <? INPUT_CHANNELS) && (KERNEL_SIZE =? 3) && (0 <? OUTPUT_CHANNELS)
  then
    w0 ← getitem kernel_weights 0;
    w0' ← setitem w0 1 [[0; 0; 0]; [0; 1; 0]; [0; 0; 0]]%float;
    setitem kernel_weights 0 w0'
  else Ok kernel_weights.

(** Lines 158-162. *)
Definition input_image_data : tensor :=
  (fun c => (fun h => (fun w => float_of_int (c * 100 + h * 10 + w))
                        <$> range INPUT_WIDTH)
              <$> range INPUT_HEIGHT)
    <$> range INPUT_CHANNELS.

(** [except ValueError as e: print(f"Error: {e}")]; any other exception
    leaves the [try] statement. *)
Definition except_ValueError (written : list piece) (e : exn) : result (list piece) :=
  match e with
  | ValueError m => Ok (written ++ print [Text "Error: "; Msg m])
  | _ => Err e
  end.

(** Lines 164-182 and 184-203: the two test cases, which differ in their
    number, stride and padding mode. *)
Definition test_case (number : String.string) (stride current_padding_mode_val : Z)
    (kernel_weights : weights) : result (list piece) :=
  let banner :=
    print [Newline; Text "--- Test Case "; Text number; Text ": Stride "; Int stride;
           Text ", Padding Mode: "; Int current_padding_mode_val;
           Text " ("; Text (if current_padding_mode_val =? 0 then "VALID" else "SAME");
           Text ") ---"] in
  match __init__ KERNEL_SIZE stride current_padding_mode_val
                 INPUT_CHANNELS OUTPUT_CHANNELS kernel_weights with
  | Err e => except_ValueError banner e
  | Ok conv_layer =>
    let written := banner ++ print [Text "Performing convolution..."] in
    match forward conv_layer input_image_data with
    | Err e => except_ValueError written e
    | Ok output_image =>
      let written := written ++ print [Text "Convolution complete."] in
      match print_image_py output_image
              [Text "Output Image (Padding "; Int current_padding_mode_val;
               Text ", Stride "; Int stride; Text ")"] with
      | Err e => except_ValueError written e
      | Ok printed => Ok (written ++ printed)
      end
    end
  end.

(** Lines 135-205. An exception that no [try] statement catches ends the
    demo; what was written before it is not kept. *)
Definition main : result (list piece) :=
  let written :=
    print [Text "Initializing Python Convolution Layer..."]
    ++ print [Text "Kernel Size: "; Int KERNEL_SIZE]
    ++ print [Text "Input Channels: "; Int INPUT_CHANNELS;
              Text ", Output Channels: "; Int OUTPUT_CHANNELS]
    ++ print [Text "Input Dimensions: "; Int INPUT_CHANNELS; Text "x";
              Int INPUT_HEIGHT; Text "x"; Int INPUT_WIDTH] in
  avg_kernel_val ← float_truediv 1 (KERNEL_SIZE * KERNEL_SIZE);
  kernel_weights ← centre_tap (averaging avg_kernel_val);
  case1 ← test_case "1" STRIDE PADDING_MODE_VALID kernel_weights;
  let STRIDE_2 := 2 in
  case2 ← test_case "2" STRIDE_2 PADDING_MODE_SAME kernel_weights;
  Ok (written ++ case1 ++ case2
      ++ print [Newline; Text "Python convolution demo finished."]).

End constants.

Definition __main__ : result (list piece) := main 3 1 3 1 32 32.

End Main.

(** ** The constructor on the object store *)

(** [for x in v: body(x)] over a list object, for a body that writes to no
    list: the elements are those the list holds when the loop starts. *)
Definition for_st (v : val) (body : val -> M unit) : M unit :=
  items ← deref v; foldM_st (fun _ x => body x) items tt.

(** Lines 34-36. *)
Definition check_k_row_st (self k_row : val) : M unit :=
  n ← len_st k_row;
  k ← attr self kernel_size;
  if negb (n =? k)
  then
    k' ← attr self kernel_size;
    n' ← len_st k_row;
    raise_st (ValueError (WidthDimensionMismatch k' n'))
  else mret tt.

(** Lines 31-36. *)
Definition check_ic_weights_st (self ic_weights : val) : M unit :=
  n ← len_st ic_weights;
  k ← attr self kernel_size;
  if negb (n =? k)
  then
    k' ← attr self kernel_size;
    n' ← len_st ic_weights;
    raise_st (ValueError (HeightDimensionMismatch k' n'))
  else for_st ic_weights (check_k_row_st self).

(** Lines 28-36. *)
Definition check_oc_weights_st (self oc_weights : val) : M unit :=
  n ← len_st oc_weights;
  ic ← attr self input_channels;
  if negb (n =? ic)
  then
    ic' ← attr self input_channels;
    n' ← len_st oc_weights;
    raise_st (ValueError (InputChannelsDimensionMismatch ic' n'))
  else for_st oc_weights (check_ic_weights_st self).

(** Lines 26-36: the validation reads the weights through the attribute
    that line 23 has just set. *)
Definition validate_st (self : val) : M unit :=
  ws ← attr self kernel_weights;
  n ← len_st ws;
  oc ← attr self output_channels;
  if negb (n =? oc)
  then
    oc' ← attr self output_channels;
    ws' ← attr self kernel_weights;
    n' ← len_st ws';
    raise_st (ValueError (OuterDimensionMismatch oc' n'))
  else
    ws' ← attr self kernel_weights;
    for_st ws' (check_oc_weights_st self).

(** The call [ConvolutionLayer(...)] on the store. The instance exists
    before [__init__] runs, without attributes and known to nobody else; the
    store shows it from lines 18-23 on, where it gets its six attributes.
    Line 23 stores the reference it was given. *)
Definition init_st (kernel_size stride padding_mode input_channels output_channels : Z)
    (initial_kernel_weights : val) : M val :=
  if negb (0 <? kernel_size) then raise_st (ValueError KernelSizeNotPositive)
  else if negb (0 <? stride) then raise_st (ValueError StrideNotPositive)
  else if negb ((padding_mode =? 0) || (padding_mode =? 1))
  then raise_st (ValueError PaddingModeNotZeroOrOne)
  else if negb (0 <? input_channels) then raise_st (ValueError InputChannelsNotPositive)
  else if negb (0 <? output_channels) then raise_st (ValueError OutputChannelsNotPositive)
  else
    b ← truthy_st initial_kernel_weights;
    if negb b then raise_st (ValueError KernelWeightsEmpty)
    else
      self ← alloc_obj (OLayer {| kernel_size := kernel_size;
                                  stride := stride;
                                  padding_mode := padding_mode;
                                  input_channels := input_channels;
                                  output_channels := output_channels;
                                  kernel_weights := initial_kernel_weights |});
      _ ← validate_st self;
      mret self.
(** ** Notions of the specification *)

(** *** The structural invariants of section 3 *)

Definition weights_shaped (oc ic k : Z) (w : weights) : Prop :=
  len w = oc /\
  Forall (fun w1 => len w1 = ic /\
    Forall (fun w2 => len w2 = k /\
      Forall (fun w3 : list float => len w3 = k) w2) w1) w.

Definition invariants (k s p ic oc : Z) (w : weights) : Prop :=
  0 < k /\ 0 < s /\ (p = 0 \/ p = 1) /\ 0 < ic /\ 0 < oc /\ weights_shaped oc ic k w.

(** An engine is one that the constructor returned. *)
Definition constructed (self : ConvolutionLayer) : Prop :=
  __init__ (kernel_size self) (stride self) (padding_mode self)
           (input_channels self) (output_channels self) (kernel_weights self)
  = Ok self.

(** Every violated constraint, in the order in which the constructor tests
    them: the five scalar parameters as they appear in the signature, the
    emptiness and the outer length of the weights, then each output channel
    in turn, each of its input channels in turn, each of its rows in turn. *)
Definition unless (b : bool) (m : message) : list message :=
  if b then [] else [m].

Definition row_violations (k : Z) (w3 : list float) : list message :=
  unless (len w3 =? k) (WidthDimensionMismatch k (len w3)).

Definition ic_violations (k : Z) (w2 : list (list float)) : list message :=
  unless (len w2 =? k) (HeightDimensionMismatch k (len w2))
  ++ (w2 ≫= row_violations k).

Definition oc_violations (ic k : Z) (w1 : list (list (list float))) : list message :=
  unless (len w1 =? ic) (InputChannelsDimensionMismatch ic (len w1))
  ++ (w1 ≫= ic_violations k).

Definition violations (k s p ic oc : Z) (w : weights) : list message :=
  unless (0 <? k) KernelSizeNotPositive
  ++ unless (0 <? s) StrideNotPositive
  ++ unless ((p =? 0) || (p =? 1)) PaddingModeNotZeroOrOne
  ++ unless (0 <? ic) InputChannelsNotPositive
  ++ unless (0 <? oc) OutputChannelsNotPositive
  ++ unless (truthy w) KernelWeightsEmpty
  ++ unless (len w =? oc) (OuterDimensionMismatch oc (len w))
  ++ (w ≫= oc_violations ic k).

(** The same constraints in the order in which section 3 lists them: the four
    positive sizes, the padding mode, then the weights level by level. *)
Definition section3_violations (k s p ic oc : Z) (w : weights) : list message :=
  unless (0 <? k) KernelSizeNotPositive
  ++ unless (0 <? s) StrideNotPositive
  ++ unless (0 <? ic) InputChannelsNotPositive
  ++ unless (0 <? oc) OutputChannelsNotPositive
  ++ unless ((p =? 0) || (p =? 1)) PaddingModeNotZeroOrOne
  ++ unless (len w =? oc) (OuterDimensionMismatch oc (len w))
  ++ (w ≫= fun w1 => unless (len w1 =? ic) (InputChannelsDimensionMismatch ic (len w1)))
  ++ (w ≫= fun w1 => w1 ≫= fun w2 =>
        unless (len w2 =? k) (HeightDimensionMismatch k (len w2)))
  ++ (w ≫= fun w1 => w1 ≫= fun w2 => w2 ≫= row_violations k).

(** What a checking loop reports for a list of violations. *)
Definition check_of (vs : list message) : result unit :=
  match vs with
  | [] => Ok tt
  | m :: _ => Err (ValueError m)
  end.

(** What the constructor reports for a list of violations. *)
Definition report (self : ConvolutionLayer) (vs : list message) : result ConvolutionLayer :=
  match vs with
  | [] => Ok self
  | m :: _ => Err (ValueError m)
  end.

(** *** Tensors as the specification sees them *)

(** Height and width as [forward] reads them: off the first channel and its
    first row. *)
Definition height (t : tensor) : Z :=
  match t with c0 :: _ => len c0 | [] => 0 end.

Definition width (t : tensor) : Z :=
  match t with (r0 :: _) :: _ => len r0 | _ => 0 end.

(** Every channel has the same height and every row the same width. *)
Definition rectangular (t : tensor) : Prop :=
  Forall (fun c => len c = height t /\ Forall (fun r : row => len r = width t) c) t.

(** No channel, no row or no column. *)
Definition tensor_empty (t : tensor) : bool :=
  (len t =? 0) || (height t =? 0) || (width t =? 0).

(** Shape [[c][h][w]]. *)
Definition has_shape (c h w : Z) (t : tensor) : Prop :=
  len t = c /\ Forall (fun ch => len ch = h /\ Forall (fun r : row => len r = w) ch) t.

(** The cell [t[c][h][w]] when it exists. *)
Definition cell (t : tensor) (c h w : Z) : option float :=
  ch ← t !! Z.to_nat c; r ← ch !! Z.to_nat h; r !! Z.to_nat w.



(** A call that returns, or fails with nothing but an [IndexError]. *)
Definition at_most_IndexError {A} (r : result A) : bool :=
  match r with Ok _ | Err IndexError => true | Err _ => false end.

(** *** Output dimensions and padding, section 4.2 *)

Definition VALID : Z := 0.
Definition SAME : Z := 1.

Definition spec_output_dim (self : ConvolutionLayer) (input_dim : Z) : Z :=
  if padding_mode self =? VALID
  then (input_dim - kernel_size self) / stride self + 1
  else Qceiling (Qdiv (inject_Z input_dim) (inject_Z (stride self))).

Definition spec_padding (self : ConvolutionLayer) (input_dim : Z) : Z :=
  if padding_mode self =? VALID then 0
  else Z.max 0 (((spec_output_dim self input_dim - 1) * stride self
                 + kernel_size self - input_dim) / 2).

Definition spec_locals (self : ConvolutionLayer) (H W : Z) : locals :=
  {| input_height := H;
     input_width := W;
     padding_h := spec_padding self H;
     padding_w := spec_padding self W;
     output_height := spec_output_dim self H;
     output_width := spec_output_dim self W |}.

(** *** The convolution sum, section 4.3 *)

(** [t[c][h][w]], and [0.0] for a cell that is not there. *)
Definition at3 (t : tensor) (c h w : Z) : float :=
  default 0%float (cell t c h w).

Definition at4 (ws : weights) (oc ic kh kw : Z) : float :=
  default 0%float
    (w1 ← ws !! Z.to_nat oc; w2 ← w1 !! Z.to_nat ic;
     w3 ← w2 !! Z.to_nat kh; w3 !! Z.to_nat kw).

(** The input sample, replaced by [0.0] outside [[0, H) x [0, W)]. *)
Definition in_bounds (H W h w : Z) : bool :=
  (0 <=? h) && (h <? H) && ((0 <=? w) && (w <? W)).

Definition sample (t : tensor) (H W ic h w : Z) : float :=
  if in_bounds H W h w then at3 t ic h w else 0%float.

(** The index triples [(ic, kh, kw)] in the order of summation. *)
Definition window (self : ConvolutionLayer) : list (Z * Z * Z) :=
  ic ← range (input_channels self);
  kh ← range (kernel_size self);
  kw ← range (kernel_size self);
  [(ic, kh, kw)].

Definition term (self : ConvolutionLayer) (t : tensor) (lv : locals)
  (oc oh ow : Z) (i : Z * Z * Z) : float :=
  let '(ic, kh, kw) := i in
  (sample t (input_height lv) (input_width lv) ic
          (oh * stride self + kh - padding_h lv)
          (ow * stride self + kw - padding_w lv)
   * at4 (kernel_weights self) oc ic kh kw)%float.

Definition conv_sum (self : ConvolutionLayer) (t : tensor) (lv : locals)
  (oc oh ow : Z) : float :=
  fold_left (fun acc i => (acc + term self t lv oc oh ow i)%float) (window self) 0%float.

Definition conv (self : ConvolutionLayer) (t : tensor) (lv : locals) : tensor :=
  (fun oc => (fun oh => (fun ow => conv_sum self t lv oc oh ow)
                          <$> range (output_width lv))
               <$> range (output_height lv))
    <$> range (output_channels self).

(** *** The store as the specification sees it *)

(** Python's index normalisation: the position that [l[i]] denotes in a list
    of length [n], if any. *)
Definition pyindex (n i : Z) : option nat :=
  let j := if i <? 0 then i + n else i in
  if (j <? 0) || (n <=? j) then None else Some (Z.to_nat j).

(** The objects of a tensor laid out from address [n] on, as the nested
    comprehensions allocate them: the rows of a channel, then the channel,
    and after the last channel the outer list. *)
Definition row_obj (r : row) : obj := OList (VFloat <$> r).

Definition channel_objs (n : nat) (c : channel) : list obj :=
  (row_obj <$> c) ++ [OList (VRef <$> seq n (length c))].

Fixpoint channels_objs (n : nat) (t : tensor) : list obj :=
  match t with
  | [] => []
  | c :: t' => channel_objs n c ++ channels_objs (n + S (length c)) t'
  end.

Fixpoint channel_locs (n : nat) (t : tensor) : list nat :=
  match t with
  | [] => []
  | c :: t' => (n + length c)%nat :: channel_locs (n + S (length c)) t'
  end.

Definition tensor_objs (n : nat) (t : tensor) : list obj :=
  channels_objs n t ++ [OList (VRef <$> channel_locs n t)].

(** The address of the outer list of a tensor laid out from [n] on. *)
Definition tensor_loc (n : nat) (t : tensor) : nat :=
  (n + length (channels_objs n t))%nat.

(** The address at which channel [i] of such a tensor starts. *)
Fixpoint chunk_start (n : nat) (t : tensor) (i : nat) : nat :=
  match i, t with
  | S i', c :: t' => chunk_start (n + S (length c)) t' i'
  | _, _ => n
  end.

(** Every object of [h] is still there, with the same contents, in [h']. *)
Definition unchanged (h h' : heap) : Prop :=
  forall l o, h !! l = Some o -> h' !! l = Some o.

(** *** Decision procedures for the predicates above *)

#[global] Instance weights_shaped_dec (oc ic k : Z) (w : weights) :
  Decision (weights_shaped oc ic k w).
Proof. unfold weights_shaped. apply _. Defined.

#[global] Instance invariants_dec (k s p ic oc : Z) (w : weights) :
  Decision (invariants k s p ic oc w).
Proof. unfold invariants. apply _. Defined.

#[global] Instance rectangular_dec (t : tensor) : Decision (rectangular t).
Proof. unfold rectangular. apply _. Defined.

#[global] Instance has_shape_dec (c h w : Z) (t : tensor) : Decision (has_shape c h w t).
Proof. unfold has_shape. apply _. Defined.

(** ** The demo of the source file *)

Module Demo.

Definition box (k ic oc : Z) (v : float) : weights :=
  (fun _ => (fun _ => (fun _ => (fun _ => v) <$> range k) <$> range k) <$> range ic)
    <$> range oc.

(** [float(c * 100 + h * 10 + w)] *)
Definition ramp (c h w : Z) : tensor :=
  (fun ci => (fun hi => (fun wi =>
     PrimFloat.of_uint63 (Uint63.of_Z (ci * 100 + hi * 10 + wi)))
       <$> range w) <$> range h) <$> range c.

(** [avg_kernel_val] everywhere, then the centre tap on input channel 1. *)
Definition kernel : weights :=
  (fun w1 => <[1%nat := [[0; 0; 0]; [0; 1; 0]; [0; 0; 0]]%float]> w1)
    <$> box 3 3 1 (1 / 9)%float.

Definition layer (stride padding_mode : Z) : ConvolutionLayer :=
  {| kernel_size := 3; stride := stride; padding_mode := padding_mode;
     input_channels := 3; output_channels := 1; kernel_weights := kernel |}.

(** A one-tap layer: [kernel_size = 1], stride 1, VALID. *)
Definition pointwise (ws : weights) : ConvolutionLayer :=
  {| kernel_size := 1; stride := 1; padding_mode := VALID;
     input_channels := len (default [] (head ws)); output_channels := len ws;
     kernel_weights := ws |}.

(** A store that holds the engine of the second test case and a 3 x 5 x 5
    input, and the two references a caller would hold. *)
Definition heap0 : heap :=
  snd ((s ← alloc_layer (layer 2 SAME); alloc_tensor (ramp 3 5 5)) []).

Definition self0 : val := VRef 14.
Definition input0 : val := VRef 33.

End Demo.


(** ** Further notions used by the properties of the forward pass *)

(** The same engine with another stride. *)
Definition with_stride (s : Z) (self : ConvolutionLayer) : ConvolutionLayer :=
  {| kernel_size := kernel_size self;
     stride := s;
     padding_mode := padding_mode self;
     input_channels := input_channels self;
     output_channels := output_channels self;
     kernel_weights := kernel_weights self |}.


(** Every channel is at least as high as the first one, and each of its first
    [height t] rows at least as wide as the first row of the first channel. *)
Definition covering (t : tensor) : Prop :=
  Forall (fun c : channel =>
            height t <= len c /\
            Forall (fun r : row => width t <= len r) (take (Z.to_nat (height t)) c)) t.

#[global] Instance covering_dec (t : tensor) : Decision (covering t).
Proof. unfold covering. apply _. Defined.

(** *** Reading standard output *)

(** The floats written, in order, each with its format. *)
Definition formatted (out : list piece) : list (Z * Z * float) :=
  out ≫= fun p => match p with Fixed w d x => [(w, d, x)] | _ => [] end.

(** The number of lines written. *)
Definition lines (out : list piece) : Z :=
  len (out ≫= fun p => match p with Newline => [tt] | _ => [] end).

(** The literal strings written, in order. *)
Definition texts (out : list piece) : list String.string :=
  out ≫= fun p => match p with Text s => [s] | _ => [] end.

(** The cells of a tensor in row-major order. *)
Definition flatten (t : tensor) : list float := mjoin (mjoin t).





(** * Properties *)

(** ** The error monad and Python's list operations *)

Lemma foldM_app {S A} (body : S -> A -> result S) (l1 l2 : list A) (s : S) :
  foldM body (l1 ++ l2) s = foldM body l1 s ≫= foldM body l2.
Proof.
  revert s. induction l1 as [|x l1 IH]; intros s; simpl; [reflexivity|].
  destruct (body s x) as [s'|e]; simpl; [apply IH | reflexivity].
Qed.

(** A loop whose body never raises is a left fold. *)
Lemma foldM_pure {S A} (body : S -> A -> result S) (f : S -> A -> S) (l : list A) (s : S) :
  (forall x s', x ∈ l -> body s' x = Ok (f s' x)) ->
  foldM body l s = Ok (fold_left f l s).
Proof.
  revert s. induction l as [|x l IH]; intros s Hb; simpl; [reflexivity|].
  rewrite Hb by apply list_elem_of_here. simpl.
  apply IH. intros y s' Hy. apply Hb. by apply list_elem_of_further.
Qed.


Lemma getitem_nat {A} (l : list A) (n : nat) :
  getitem l (Z.of_nat n) =
  match l !! n with Some x => Ok x | None => raise IndexError end.
Proof.
  assert (Hneg : (Z.of_nat n <? 0) = false) by (apply Z.ltb_ge; lia).
  unfold getitem, len. cbv zeta. rewrite !Hneg, Nat2Z.id. simpl.
  destruct (Z.leb_spec (Z.of_nat (length l)) (Z.of_nat n)) as [Hge|Hlt].
  - rewrite lookup_ge_None_2 by lia. reflexivity.
  - reflexivity.
Qed.

Lemma getitem_lookup {A} (l : list A) (i : Z) (x : A) :
  0 <= i -> l !! Z.to_nat i = Some x -> getitem l i = Ok x.
Proof.
  intros Hi Hx. rewrite <- (Z2Nat.id i) by assumption.
  rewrite getitem_nat, Hx. reflexivity.
Qed.

Lemma setitem_nat {A} (l : list A) (n : nat) (v : A) :
  (n < length l)%nat -> setitem l (Z.of_nat n) v = Ok (<[n := v]> l).
Proof.
  intros Hn.
  assert (Hneg : (Z.of_nat n <? 0) = false) by (apply Z.ltb_ge; lia).
  assert (Hlt : (Z.of_nat (length l) <=? Z.of_nat n) = false) by (apply Z.leb_gt; lia).
  unfold setitem, len. cbv zeta. rewrite !Hneg, Hlt, Nat2Z.id. reflexivity.
Qed.


Lemma getitem_at_most_IndexError {A} (l : list A) (i : Z) :
  at_most_IndexError (getitem l i) = true.
Proof.
  unfold getitem. destruct (_ || _); [reflexivity|].
  destruct (l !! _); reflexivity.
Qed.

Lemma setitem_at_most_IndexError {A} (l : list A) (i : Z) (v : A) :
  at_most_IndexError (setitem l i v) = true.
Proof. unfold setitem. destruct (_ || _); reflexivity. Qed.

Lemma bind_at_most_IndexError {A B} (m : result A) (f : A -> result B) :
  at_most_IndexError m = true -> (forall a, at_most_IndexError (f a) = true) ->
  at_most_IndexError (m ≫= f) = true.
Proof. intros Hm Hf. destruct m as [a|e]; simpl; [apply Hf | exact Hm]. Qed.

Lemma foldM_at_most_IndexError {S A} (body : S -> A -> result S) (l : list A) (s : S) :
  (forall s' x, at_most_IndexError (body s' x) = true) ->
  at_most_IndexError (foldM body l s) = true.
Proof.
  intros Hb. revert s. induction l as [|x l IH]; intros s; simpl; [reflexivity|].
  apply bind_at_most_IndexError; [apply Hb | apply IH].
Qed.

Lemma range_nat (n : nat) : range (Z.of_nat (S n)) = range (Z.of_nat n) ++ [Z.of_nat n].
Proof. unfold range. rewrite seqZ_S. reflexivity. Qed.

Lemma elem_of_range (n i : Z) : i ∈ range n <-> 0 <= i < n.
Proof. unfold range. rewrite elem_of_seqZ. lia. Qed.

Lemma length_range (n : Z) : length (range n) = Z.to_nat n.
Proof. apply length_seqZ. Qed.

Lemma lookup_range (n : Z) (i : nat) :
  Z.of_nat i < n -> range n !! i = Some (Z.of_nat i).
Proof. intros Hi. unfold range. rewrite lookup_seqZ_lt by assumption. f_equal. Qed.

Lemma range_to_nat (n : Z) : range n = range (Z.of_nat (Z.to_nat n)).
Proof. unfold range, seqZ. rewrite Nat2Z.id. reflexivity. Qed.

(** A loop over [range(n)] whose [i]-th round stores [g i] at index [i] of a
    list reached through [put] maps [g] over the range. *)
Lemma foldM_fill {S A} (put : list A -> S) (body : S -> Z -> result S) (g : Z -> A)
    (l0 : list A) (n : nat) :
  (n <= length l0)%nat ->
  (forall i : nat, (i < n)%nat ->
     let l := (g <$> range (Z.of_nat i)) ++ drop i l0 in
     body (put l) (Z.of_nat i) = Ok (put (<[i := g (Z.of_nat i)]> l))) ->
  foldM body (range (Z.of_nat n)) (put l0)
  = Ok (put ((g <$> range (Z.of_nat n)) ++ drop n l0)).
Proof.
  induction n as [|n IH]; intros Hn Hh.
  - simpl. rewrite drop_0. reflexivity.
  - rewrite range_nat, foldM_app, IH by (try lia; intros i Hi; apply Hh; lia).
    simpl. rewrite Hh by lia. simpl. do 2 f_equal.
    assert (Hlen : length (g <$> range (Z.of_nat n)) = n)
      by (rewrite length_fmap, length_range; lia).
    rewrite fmap_app. simpl. rewrite <- app_assoc. simpl.
    rewrite <- (Nat.add_0_r n) at 1. rewrite <- Hlen at 1.
    rewrite insert_app_r.
    destruct (lookup_lt_is_Some_2 l0 n) as [a Ha]; [lia|].
    rewrite (drop_S _ _ _ Ha). reflexivity.
Qed.

(** ** Binary64 arithmetic used by the accumulation

    The facts below are read off the specification of the primitive
    operations ([mul_spec], [add_spec]) on [spec_float]. *)













(** ** The constructor *)

Lemma check_of_unless (b : bool) (m : message) (vs : list message) :
  check_of (unless b m ++ vs) = if b then check_of vs else Err (ValueError m).
Proof. destruct b; reflexivity. Qed.

Lemma forM__check_of {A} (body : A -> result unit) (viol : A -> list message) (l : list A) :
  (forall x, body x = check_of (viol x)) ->
  forM_ body l = check_of (l ≫= viol).
Proof.
  intros Hb. unfold forM_. induction l as [|x l IH]; [reflexivity|].
  rewrite bind_cons. cbn [foldM]. rewrite Hb.
  destruct (viol x) as [|m vs]; simpl; [exact IH | reflexivity].
Qed.

Lemma check_k_row_spec (self : ConvolutionLayer) (w3 : list float) :
  check_k_row self w3 = check_of (row_violations (kernel_size self) w3).
Proof.
  unfold check_k_row, row_violations.
  destruct (len w3 =? kernel_size self); reflexivity.
Qed.

Lemma check_ic_weights_spec (self : ConvolutionLayer) (w2 : list (list float)) :
  check_ic_weights self w2 = check_of (ic_violations (kernel_size self) w2).
Proof.
  unfold check_ic_weights, ic_violations. rewrite check_of_unless.
  destruct (len w2 =? kernel_size self); simpl; [|reflexivity].
  apply forM__check_of, check_k_row_spec.
Qed.

Lemma check_oc_weights_spec (self : ConvolutionLayer) (w1 : list (list (list float))) :
  check_oc_weights self w1
  = check_of (oc_violations (input_channels self) (kernel_size self) w1).
Proof.
  unfold check_oc_weights, oc_violations. rewrite check_of_unless.
  destruct (len w1 =? input_channels self); simpl; [|reflexivity].
  apply forM__check_of, check_ic_weights_spec.
Qed.

(** The constructor reports the first violation of [violations], and returns
    the engine holding its six arguments when there is none. *)
Lemma init_report (k s p ic oc : Z) (w : weights) :
  __init__ k s p ic oc w
  = report {| kernel_size := k; stride := s; padding_mode := p;
              input_channels := ic; output_channels := oc; kernel_weights := w |}
           (violations k s p ic oc w).
Proof.
  unfold __init__, violations.
  destruct (0 <? k); simpl; [|reflexivity].
  destruct (0 <? s); simpl; [|reflexivity].
  destruct ((p =? 0) || (p =? 1)); simpl; [|reflexivity].
  destruct (0 <? ic); simpl; [|reflexivity].
  destruct (0 <? oc); simpl; [|reflexivity].
  destruct (truthy w); simpl; [|reflexivity].
  destruct (len w =? oc); simpl; [|reflexivity].
  rewrite (forM__check_of _ (oc_violations ic k)) by apply check_oc_weights_spec.
  destruct (w ≫= oc_violations ic k); reflexivity.
Qed.

Lemma bind_nil_Forall {A B} (f : A -> list B) (l : list A) :
  l ≫= f = [] <-> Forall (fun x => f x = []) l.
Proof.
  induction l as [|x l IH].
  - split; [constructor | reflexivity].
  - rewrite bind_cons, Forall_cons, <- IH. split.
    + intros H. apply app_eq_nil in H. exact H.
    + intros [H1 H2]. rewrite H1, H2. reflexivity.
Qed.

Lemma unless_app_nil (b : bool) (m : message) (vs : list message) :
  unless b m ++ vs = [] <-> b = true /\ vs = [].
Proof. destruct b; simpl; split; try tauto; intros H; try discriminate; destruct H; discriminate. Qed.

Lemma unless_nil (b : bool) (m : message) : unless b m = [] <-> b = true.
Proof. destruct b; simpl; split; try tauto; discriminate. Qed.

Lemma oc_violations_nil (ic k : Z) (w1 : list (list (list float))) :
  oc_violations ic k w1 = [] <->
  len w1 = ic /\ Forall (fun w2 => len w2 = k /\
                   Forall (fun w3 : list float => len w3 = k) w2) w1.
Proof.
  unfold oc_violations. rewrite unless_app_nil, Z.eqb_eq, bind_nil_Forall.
  apply and_iff_compat_l. apply Forall_proper; [|reflexivity].
  intros w2. unfold ic_violations.
  rewrite unless_app_nil, Z.eqb_eq, bind_nil_Forall.
  apply and_iff_compat_l. apply Forall_proper; [|reflexivity].
  intros w3. unfold row_violations. rewrite unless_nil, Z.eqb_eq. reflexivity.
Qed.

(** There is no violation exactly when the invariants of section 3 hold. *)
Lemma violations_nil (k s p ic oc : Z) (w : weights) :
  violations k s p ic oc w = [] <-> invariants k s p ic oc w.
Proof.
  unfold violations, invariants, weights_shaped.
  rewrite !unless_app_nil, bind_nil_Forall, !Z.ltb_lt, orb_true_iff, !Z.eqb_eq.
  setoid_rewrite oc_violations_nil.
  split.
  - intros (Hk & Hs & Hp & Hic & Hoc & _ & Hl & Hw). tauto.
  - intros (Hk & Hs & Hp & Hic & Hoc & Hl & Hw). repeat split; try assumption.
    destruct w; [|reflexivity]. unfold len in Hl. simpl in Hl. lia.
Qed.

Lemma constructed_invariants (self : ConvolutionLayer) :
  constructed self ->
  invariants (kernel_size self) (stride self) (padding_mode self)
             (input_channels self) (output_channels self) (kernel_weights self).
Proof.
  unfold constructed. rewrite init_report. intros H.
  apply violations_nil. destruct (violations _ _ _ _ _ _); [reflexivity | discriminate].
Qed.


(** ** One output cell *)

Lemma getitem_in_range {A} (l : list A) (i : Z) :
  0 <= i < len l -> exists x, l !! Z.to_nat i = Some x /\ getitem l i = Ok x.
Proof.
  intros [H0 Hlt]. unfold len in Hlt.
  destruct (lookup_lt_is_Some_2 l (Z.to_nat i)) as [x Hx]; [lia|].
  exists x. split; [exact Hx | by apply getitem_lookup].
Qed.

Lemma Forall_lookup_Z {A} (P : A -> Prop) (l : list A) (i : Z) (x : A) :
  Forall P l -> l !! Z.to_nat i = Some x -> P x.
Proof. intros Hl Hx. exact (Forall_lookup_1 P l _ x Hl Hx). Qed.

Lemma fold_left_bind {A B C} (g : A -> C -> A) (h : B -> list C) (l : list B) (a : A) :
  fold_left g (l ≫= h) a = fold_left (fun a x => fold_left g (h x) a) l a.
Proof.
  revert a. induction l as [|x l IH]; intros a; [reflexivity|].
  rewrite bind_cons, fold_left_app. simpl. apply IH.
Qed.

Section cell.
Variable self : ConvolutionLayer.
Variable t : tensor.
Variable lv : locals.
Hypothesis Hself : constructed self.
Hypothesis Hrect : rectangular t.
Hypothesis Hlen : len t = input_channels self.
Hypothesis Hh : input_height lv = height t.
Hypothesis Hw : input_width lv = width t.

Lemma weight_at4 (oc ic kh kw : Z) :
  0 <= oc < output_channels self -> 0 <= ic < input_channels self ->
  0 <= kh < kernel_size self -> 0 <= kw < kernel_size self ->
  weight self oc ic kh kw = Ok (at4 (kernel_weights self) oc ic kh kw).
Proof.
  intros Hoc Hic Hkh Hkw.
  destruct (constructed_invariants self Hself) as (_ & _ & _ & _ & _ & Hl & Hws).
  unfold weight, at4.
  destruct (getitem_in_range (kernel_weights self) oc) as (w1 & E1 & G1); [lia|].
  destruct (Forall_lookup_Z _ _ _ _ Hws E1) as [Hl1 Hw1].
  destruct (getitem_in_range w1 ic) as (w2 & E2 & G2); [lia|].
  destruct (Forall_lookup_Z _ _ _ _ Hw1 E2) as [Hl2 Hw2].
  destruct (getitem_in_range w2 kh) as (w3 & E3 & G3); [lia|].
  pose proof (Forall_lookup_Z _ _ _ _ Hw2 E3) as Hl3. simpl in Hl3.
  destruct (getitem_in_range w3 kw) as (x & E4 & G4); [lia|].
  rewrite G1, E1. simpl. rewrite G2, E2. simpl. rewrite G3, E3. simpl.
  rewrite G4, E4. reflexivity.
Qed.

Lemma pixel_value_sample (ic h w : Z) :
  0 <= ic < input_channels self ->
  pixel_value t lv ic h w = Ok (sample t (input_height lv) (input_width lv) ic h w).
Proof.
  intros Hic. unfold pixel_value, sample, in_bounds.
  destruct (_ && _) eqn:Hb; [|reflexivity].
  apply andb_true_iff in Hb as [Hb1 Hb2].
  apply andb_true_iff in Hb1 as [Hh0 Hh1]. apply andb_true_iff in Hb2 as [Hw0 Hw1].
  apply Z.leb_le in Hh0, Hw0. apply Z.ltb_lt in Hh1, Hw1.
  unfold at3, cell.
  destruct (getitem_in_range t ic) as (c & E1 & G1); [lia|].
  destruct (Forall_lookup_Z _ _ _ _ Hrect E1) as [Hl1 Hrows].
  destruct (getitem_in_range c h) as (r & E2 & G2); [lia|].
  pose proof (Forall_lookup_Z _ _ _ _ Hrows E2) as Hl2. simpl in Hl2.
  destruct (getitem_in_range r w) as (x & E3 & G3); [lia|].
  rewrite G1, E1. simpl. rewrite G2, E2. simpl. rewrite G3, E3. reflexivity.
Qed.

Lemma accumulate_term (oc oh ow ic kh kw : Z) (acc : float) :
  0 <= oc < output_channels self -> 0 <= ic < input_channels self ->
  0 <= kh < kernel_size self -> 0 <= kw < kernel_size self ->
  accumulate self t lv oc oh ow ic kh acc kw
  = Ok (acc + term self t lv oc oh ow (ic, kh, kw))%float.
Proof.
  intros Hoc Hic Hkh Hkw. unfold accumulate, term. cbv zeta.
  rewrite pixel_value_sample by assumption. simpl.
  rewrite weight_at4 by assumption. reflexivity.
Qed.

(** The three inner loops compute the convolution sum of the specification. *)
Lemma cell_sum_conv_sum (oc oh ow : Z) :
  0 <= oc < output_channels self ->
  cell_sum self t lv oc oh ow = Ok (conv_sum self t lv oc oh ow).
Proof.
  intros Hoc. unfold cell_sum, conv_sum, window.
  rewrite fold_left_bind.
  apply foldM_pure. intros ic acc Hic. apply elem_of_range in Hic.
  rewrite fold_left_bind.
  apply foldM_pure. intros kh acc' Hkh. apply elem_of_range in Hkh.
  rewrite fold_left_bind.
  rewrite (foldM_pure _ (fun a kw => (a + term self t lv oc oh ow (ic, kh, kw))%float)).
  - reflexivity.
  - intros kw a Hkw. apply elem_of_range in Hkw. by apply accumulate_term.
Qed.
End cell.

(** ** The three outer loops *)

Section fill.
Variable self : ConvolutionLayer.
Variable t : tensor.
Variable lv : locals.
Variable f : Z -> Z -> Z -> float.
Hypothesis Hcell : forall oc oh ow,
  0 <= oc < output_channels self -> cell_sum self t lv oc oh ow = Ok (f oc oh ow).

Lemma store_insert (out0 : tensor) (c : channel) (r : row) (i j k : nat) (v : float) :
  (i < length out0)%nat -> (j < length c)%nat -> (k < length r)%nat ->
  store (<[i := <[j := r]> c]> out0) (Z.of_nat i) (Z.of_nat j) (Z.of_nat k) v
  = Ok (<[i := <[j := <[k := v]> r]> c]> out0).
Proof.
  intros Hi Hj Hk. unfold store.
  rewrite getitem_nat, list_lookup_insert_eq by assumption. simpl.
  rewrite getitem_nat, list_lookup_insert_eq by assumption. simpl.
  rewrite setitem_nat by assumption. simpl.
  rewrite setitem_nat by (rewrite length_insert; assumption). simpl.
  rewrite setitem_nat by (rewrite length_insert; assumption).
  rewrite !list_insert_insert_eq. reflexivity.
Qed.

Lemma fill_row (out0 : tensor) (c : channel) (r : row) (i j : nat) :
  Z.of_nat i < output_channels self ->
  (i < length out0)%nat -> (j < length c)%nat ->
  length r = Z.to_nat (output_width lv) ->
  foldM (fun out ow => cell_sum self t lv (Z.of_nat i) (Z.of_nat j) ow
                       ≫= store out (Z.of_nat i) (Z.of_nat j) ow)
        (range (output_width lv)) (<[i := <[j := r]> c]> out0)
  = Ok (<[i := <[j := f (Z.of_nat i) (Z.of_nat j) <$> range (output_width lv)]> c]> out0).
Proof.
  intros Hoc Hi Hj Hr. rewrite range_to_nat.
  rewrite (foldM_fill (fun r => <[i := <[j := r]> c]> out0) _
             (f (Z.of_nat i) (Z.of_nat j)) r (Z.to_nat (output_width lv))) by
    (try lia; intros k Hk l; rewrite Hcell by lia; simpl;
     apply store_insert; try assumption;
     unfold l; rewrite length_app, length_fmap, length_range, length_drop; lia).
  rewrite drop_ge, app_nil_r by lia. reflexivity.
Qed.

Lemma fill_channel (out0 : tensor) (c : channel) (i : nat) :
  Z.of_nat i < output_channels self ->
  (i < length out0)%nat ->
  length c = Z.to_nat (output_height lv) ->
  Forall (fun r : row => length r = Z.to_nat (output_width lv)) c ->
  foldM (fun out oh =>
           foldM (fun out ow => cell_sum self t lv (Z.of_nat i) oh ow
                                ≫= store out (Z.of_nat i) oh ow)
                 (range (output_width lv)) out)
        (range (output_height lv)) (<[i := c]> out0)
  = Ok (<[i := (fun oh => f (Z.of_nat i) oh <$> range (output_width lv))
                 <$> range (output_height lv)]> out0).
Proof.
  intros Hoc Hi Hc Hrows. rewrite (range_to_nat (output_height lv)).
  rewrite (foldM_fill (fun c => <[i := c]> out0) _
             (fun oh => f (Z.of_nat i) oh <$> range (output_width lv))
             c (Z.to_nat (output_height lv))).
  - rewrite drop_ge, app_nil_r by lia. reflexivity.
  - lia.
  - intros j Hj l.
    assert (Hlen : length l = length c).
    { unfold l. rewrite length_app, length_fmap, length_range, length_drop. lia. }
    destruct (lookup_lt_is_Some_2 c j) as [r Hr]; [lia|].
    assert (Hlj : l !! j = Some r).
    { unfold l. rewrite lookup_app_r by (rewrite length_fmap, length_range; lia).
      rewrite length_fmap, length_range, lookup_drop, Nat2Z.id.
      rewrite <- Hr. f_equal. lia. }
    rewrite <- (list_insert_id l j r Hlj) at 1.
    apply fill_row; try assumption; try lia.
    exact (Forall_lookup_1 _ _ _ _ Hrows Hr).
Qed.

Lemma length_zeros : length (zeros self lv) = Z.to_nat (output_channels self).
Proof. unfold zeros. rewrite length_fmap, length_range. reflexivity. Qed.

Lemma lookup_zeros (i : nat) (c : channel) :
  zeros self lv !! i = Some c ->
  length c = Z.to_nat (output_height lv) /\
  Forall (fun r : row => length r = Z.to_nat (output_width lv)) c.
Proof.
  unfold zeros. rewrite list_lookup_fmap. intros H.
  destruct (range (output_channels self) !! i); [|discriminate].
  injection H as <-. split.
  - rewrite length_fmap, length_range. reflexivity.
  - apply Forall_fmap, Forall_forall. intros oh _. simpl.
    rewrite length_fmap, length_range. reflexivity.
Qed.

(** The loop nest fills the zero tensor with the cell function. *)
Lemma fill_zeros :
  fill self t lv (zeros self lv)
  = Ok ((fun oc => (fun oh => f oc oh <$> range (output_width lv))
                     <$> range (output_height lv))
          <$> range (output_channels self)).
Proof.
  unfold fill. rewrite (range_to_nat (output_channels self)).
  rewrite (foldM_fill (fun out => out) _
             (fun oc => (fun oh => f oc oh <$> range (output_width lv))
                          <$> range (output_height lv))
             (zeros self lv) (Z.to_nat (output_channels self))).
  - rewrite drop_ge, app_nil_r by (rewrite length_zeros; lia). reflexivity.
  - rewrite length_zeros. lia.
  - intros i Hi l.
    assert (Hlen : length l = length (zeros self lv)).
    { unfold l. rewrite length_app, length_fmap, length_range, length_drop, length_zeros.
      lia. }
    destruct (lookup_lt_is_Some_2 (zeros self lv) i) as [c Hc];
      [rewrite length_zeros; lia|].
    assert (Hli : l !! i = Some c).
    { unfold l. rewrite lookup_app_r by (rewrite length_fmap, length_range; lia).
      rewrite length_fmap, length_range, lookup_drop, Nat2Z.id.
      rewrite <- Hc. f_equal. lia. }
    destruct (lookup_zeros i c Hc) as [Hc1 Hc2].
    rewrite <- (list_insert_id l i c Hli) at 1.
    apply fill_channel; try assumption; try lia.
    rewrite Hlen, length_zeros. lia.
Qed.
End fill.

(** ** The forward pass as a whole *)

(** Under [max(0, _)], truncating the halved amount towards zero (as [int]
    does) and rounding it down (as the specification says) agree. *)
Lemma max_int_of_half (x : Z) :
  Z.max 0 (int_of (Qdiv (inject_Z x) (inject_Z 2))) = Z.max 0 (x / 2).
Proof.
  unfold int_of.
  change (Qnum (Qdiv (inject_Z x) (inject_Z 2))) with (x * 1).
  change (Qden (Qdiv (inject_Z x) (inject_Z 2))) with 2%positive.
  rewrite Z.mul_1_r.
  destruct (Z.le_gt_cases 0 x) as [Hx|Hx].
  - rewrite Z.quot_div_nonneg by lia. reflexivity.
  - assert (x ÷ 2 <= 0).
    { replace x with (- (- x)) by lia. rewrite Z.quot_opp_l by lia.
      pose proof (Z.quot_pos (- x) 2). lia. }
    assert (x / 2 < 0) by (apply Z.div_lt_upper_bound; lia).
    rewrite (Z.max_l 0 (x ÷ 2)) by assumption.
    rewrite (Z.max_l 0 (x / 2)) by (by apply Z.lt_le_incl).
    reflexivity.
Qed.

Lemma calculate_padding_amount_spec (self : ConvolutionLayer) (n o : Z) :
  _calculate_padding_amount self n o
  = Z.max 0 (((o - 1) * stride self + kernel_size self - n) / 2).
Proof. unfold _calculate_padding_amount. apply max_int_of_half. Qed.

Lemma derive_dims_spec (self : ConvolutionLayer) (H W : Z) :
  constructed self ->
  derive_dims self H W = Ok (spec_locals self H W).
Proof.
  intros Hc.
  destruct (constructed_invariants self Hc) as (_ & Hs & Hp & _).
  unfold derive_dims, spec_locals, spec_padding, spec_output_dim, VALID,
    floordiv, truediv, math_ceil.
  replace (stride self =? 0) with false by (symmetry; apply Z.eqb_neq; lia).
  destruct Hp as [-> | ->]; simpl; [reflexivity|].
  rewrite !calculate_padding_amount_spec. reflexivity.
Qed.

Lemma tensor_empty_cases (t : tensor) :
  tensor_empty t =
  match t with
  | [] | [] :: _ | ([] :: _) :: _ => true
  | _ => false
  end.
Proof.
  destruct t as [|[|[|x r0] c0] t']; reflexivity.
Qed.

Lemma getitem_0 {A} (x : A) (l : list A) : getitem (x :: l) 0 = Ok x.
Proof. exact (getitem_nat (x :: l) 0). Qed.

(** [forward] on any list of lists of lists: its three checks, then the loop
    nest on the dimensions read off the first channel. *)
Lemma forward_unfold (self : ConvolutionLayer) (t : tensor) :
  constructed self ->
  let lv := spec_locals self (height t) (width t) in
  forward self t =
  if tensor_empty t then Err (ValueError InputImageEmpty)
  else if negb (len t =? input_channels self)
  then Err (ValueError (InputImageChannelsMismatch (input_channels self) (len t)))
  else if (output_height lv <=? 0) || (output_width lv <=? 0)
  then Err (ValueError OutputDimensionsNonPositive)
  else fill self t lv (zeros self lv).
Proof.
  intros Hc lv. rewrite tensor_empty_cases. unfold forward.
  destruct t as [|[|[|x r0] c0] t']; try reflexivity.
  cbn [truthy negb]. rewrite !getitem_0. cbn [mbind result_bind truthy negb].
  rewrite !getitem_0. cbn [mbind result_bind truthy negb].
  destruct (negb _); [reflexivity|].
  rewrite derive_dims_spec by assumption. reflexivity.
Qed.

(** On a rectangular input that passes the checks, [forward] returns the
    convolution of the specification. *)
Lemma forward_conv (self : ConvolutionLayer) (t : tensor) :
  constructed self -> rectangular t ->
  tensor_empty t = false -> len t = input_channels self ->
  0 < spec_output_dim self (height t) -> 0 < spec_output_dim self (width t) ->
  forward self t = Ok (conv self t (spec_locals self (height t) (width t))).
Proof.
  intros Hc Hrect Hne Hlen Hoh How.
  rewrite forward_unfold by assumption. rewrite Hne.
  replace (len t =? input_channels self) with true by (symmetry; by apply Z.eqb_eq).
  cbn [negb output_height output_width spec_locals].
  replace (spec_output_dim self (height t) <=? 0) with false
    by (symmetry; apply Z.leb_gt; lia).
  replace (spec_output_dim self (width t) <=? 0) with false
    by (symmetry; apply Z.leb_gt; lia).
  cbn [orb]. unfold conv.
  apply fill_zeros. intros oc oh ow Hoc.
  by apply cell_sum_conv_sum.
Qed.

(** ** Shapes, cells and the output dimensions *)

Lemma len_fmap_range {A} (g : Z -> A) (n : Z) : 0 <= n -> len (g <$> range n) = n.
Proof. intros Hn. unfold len. rewrite length_fmap, length_range. lia. Qed.

Lemma has_shape_conv (self : ConvolutionLayer) (t : tensor) (lv : locals) :
  0 <= output_channels self -> 0 <= output_height lv -> 0 <= output_width lv ->
  has_shape (output_channels self) (output_height lv) (output_width lv) (conv self t lv).
Proof.
  intros Hc Hh Hw. unfold has_shape, conv. split; [by apply len_fmap_range|].
  apply Forall_fmap, Forall_forall. intros oc _. simpl.
  split; [by apply len_fmap_range|].
  apply Forall_fmap, Forall_forall. intros oh _. simpl.
  by apply len_fmap_range.
Qed.

Lemma lookup_fmap_range {A} (g : Z -> A) (n i : Z) :
  0 <= i < n -> (g <$> range n) !! Z.to_nat i = Some (g i).
Proof.
  intros Hi. rewrite list_lookup_fmap, lookup_range by lia.
  simpl. rewrite Z2Nat.id by lia. reflexivity.
Qed.

Lemma cell_conv (self : ConvolutionLayer) (t : tensor) (lv : locals) (oc oh ow : Z) :
  0 <= oc < output_channels self -> 0 <= oh < output_height lv ->
  0 <= ow < output_width lv ->
  cell (conv self t lv) oc oh ow = Some (conv_sum self t lv oc oh ow).
Proof.
  intros Hoc Hoh How. unfold cell, conv.
  rewrite lookup_fmap_range by assumption. simpl.
  rewrite lookup_fmap_range by assumption. simpl.
  by rewrite lookup_fmap_range.
Qed.

(** [math.ceil(n / s)] is the least integer [c] with [n <= c * s]. *)
Lemma Qceiling_div (n s : Z) :
  0 < s ->
  let c := Qceiling (Qdiv (inject_Z n) (inject_Z s)) in
  (c - 1) * s < n <= c * s.
Proof.
  intros Hs c.
  assert (Hc : c = - ((- n) / s)).
  { unfold c. destruct s as [|p|p]; try lia.
    unfold Qceiling, Qfloor, Qopp, Qdiv, Qmult, Qinv, inject_Z. simpl Qnum. simpl Qden.
    rewrite Pos.mul_1_l, Z.mul_1_r. reflexivity. }
  pose proof (Z.div_mod (- n) s ltac:(lia)) as Hdm.
  pose proof (Z.mod_pos_bound (- n) s Hs) as Hb.
  rewrite Hc. nia.
Qed.



Lemma spec_output_dim_VALID_pos (self : ConvolutionLayer) (n : Z) :
  0 < stride self -> padding_mode self = VALID -> kernel_size self <= n ->
  0 < spec_output_dim self n.
Proof.
  intros Hs Hp Hn. unfold spec_output_dim. rewrite Hp. simpl.
  pose proof (Z.div_pos (n - kernel_size self) (stride self)). lia.
Qed.


(** ** Inputs that are not rectangular *)

Lemma fill_at_most_IndexError (self : ConvolutionLayer) (t : tensor) (lv : locals)
    (out : tensor) :
  at_most_IndexError (fill self t lv out) = true.
Proof.
  unfold fill.
  apply foldM_at_most_IndexError. intros out1 oc.
  apply foldM_at_most_IndexError. intros out2 oh.
  apply foldM_at_most_IndexError. intros out3 ow.
  apply bind_at_most_IndexError.
  - unfold cell_sum.
    apply foldM_at_most_IndexError. intros a1 ic.
    apply foldM_at_most_IndexError. intros a2 kh.
    apply foldM_at_most_IndexError. intros a3 kw.
    unfold accumulate. cbv zeta. apply bind_at_most_IndexError.
    + unfold pixel_value. destruct (_ && _); [|reflexivity].
      repeat (apply bind_at_most_IndexError;
              [apply getitem_at_most_IndexError | intros ?]).
      apply getitem_at_most_IndexError.
    + intros p. apply bind_at_most_IndexError; [|reflexivity].
      unfold weight.
      repeat (apply bind_at_most_IndexError;
              [apply getitem_at_most_IndexError | intros ?]).
      apply getitem_at_most_IndexError.
  - intros v. unfold store.
    repeat (apply bind_at_most_IndexError;
            [first [apply getitem_at_most_IndexError | apply setitem_at_most_IndexError]
            | intros ?]).
    apply setitem_at_most_IndexError.
Qed.

Lemma cell_in_range (t : tensor) (ic h w : Z) :
  rectangular t -> 0 <= ic < len t -> 0 <= h < height t -> 0 <= w < width t ->
  exists x, cell t ic h w = Some x.
Proof.
  intros Hrect Hic Hh Hw. unfold cell.
  destruct (getitem_in_range t ic) as (c & E1 & _); [lia|].
  destruct (Forall_lookup_Z _ _ _ _ Hrect E1) as [Hl1 Hrows].
  destruct (getitem_in_range c h) as (r & E2 & _); [lia|].
  pose proof (Forall_lookup_Z _ _ _ _ Hrows E2) as Hl2. simpl in Hl2.
  destruct (getitem_in_range r w) as (x & E3 & _); [lia|].
  exists x. rewrite E1. simpl. rewrite E2. simpl. exact E3.
Qed.

(** ** Sums against a zero kernel and against a one-hot kernel *)











(** ** The object store: reading *)

Lemma bind_st_Ok {A B} (m : M A) (f : A -> M B) (h h' : heap) (a : A) :
  m h = (Ok a, h') -> (m ≫= f) h = f a h'.
Proof. intros Hm. unfold mbind, M_bind. rewrite Hm. reflexivity. Qed.

Lemma bind_st_Err {A B} (m : M A) (f : A -> M B) (h h' : heap) (e : exn) :
  m h = (Err e, h') -> (m ≫= f) h = (Err e, h').
Proof. intros Hm. unfold mbind, M_bind. rewrite Hm. reflexivity. Qed.

(** A step that leaves the store alone and computes what [r] computes. *)
Lemma bind_st_pure {A B} (m : M A) (f : A -> M B) (r : result A) (k : A -> result B)
    (h : heap) :
  m h = (r, h) -> (forall a, r = Ok a -> f a h = (k a, h)) ->
  (m ≫= f) h = (r ≫= k, h).
Proof.
  intros Hm Hf. destruct r as [a|e].
  - rewrite (bind_st_Ok _ _ _ _ _ Hm). by apply Hf.
  - rewrite (bind_st_Err _ _ _ _ _ Hm). reflexivity.
Qed.

Lemma foldM_st_pure {S A} (body_st : S -> A -> M S) (body : S -> A -> result S)
    (l : list A) (s : S) (h : heap) :
  (forall s' x, x ∈ l -> body_st s' x h = (body s' x, h)) ->
  foldM_st body_st l s h = (foldM body l s, h).
Proof.
  revert s. induction l as [|x l IH]; intros s Hb; [reflexivity|].
  cbn [foldM_st foldM]. apply bind_st_pure.
  - apply Hb, list_elem_of_here.
  - intros s' _. apply IH. intros s'' y Hy. apply Hb. by apply list_elem_of_further.
Qed.

Lemma read_list_deref (h : heap) (v : val) (vs : list val) :
  read_list h v = Some vs -> deref v h = (Ok vs, h).
Proof.
  unfold read_list, deref. destruct v as [x|l]; [discriminate|].
  destruct (h !! l) as [[vs'|a]|]; try discriminate. by intros [= ->].
Qed.

(** Indexing two lists of related elements at the same Python index. *)
Lemma getitem_Forall2 {A B} (R : A -> B -> Prop) (vs : list A) (l : list B) (i : Z) :
  Forall2 R vs l ->
  match getitem vs i, getitem l i with
  | Ok v, Ok x => R v x
  | Err e, Err e' => e = e'
  | _, _ => False
  end.
Proof.
  intros HR. unfold getitem, len. rewrite (Forall2_length _ _ _ HR).
  destruct (_ || _); [reflexivity|].
  set (j := Z.to_nat _).
  destruct (l !! j) as [x|] eqn:Hx.
  - destruct (Forall2_lookup_r _ _ _ _ _ HR Hx) as (v & -> & Hv). exact Hv.
  - destruct (vs !! j) as [v|] eqn:Hv; [|reflexivity].
    destruct (Forall2_lookup_l _ _ _ _ _ HR Hv) as (x & Hx' & _). congruence.
Qed.

(** [v[i]] on a list object whose elements represent those of [l]. *)
Lemma getitem_st_sim {A B} (R : val -> A -> Prop) (h : heap) (v : val) (vs : list val)
    (l : list A) (i : Z) (f : val -> M B) (k : A -> result B) :
  read_list h v = Some vs -> Forall2 R vs l ->
  (forall v' x, R v' x -> f v' h = (k x, h)) ->
  (getitem_st v i ≫= f) h = (getitem l i ≫= k, h).
Proof.
  intros Hv HR Hf. unfold getitem_st.
  pose proof (getitem_Forall2 R vs l i HR) as Hi.
  assert (Hg : (deref v ≫= fun vs => lift (getitem vs i)) h = (getitem vs i, h)).
  { rewrite (bind_st_Ok _ _ _ _ _ (read_list_deref _ _ _ Hv)). reflexivity. }
  destruct (getitem vs i) as [v'|e], (getitem l i) as [x|e']; try contradiction.
  - rewrite (bind_st_Ok _ _ _ _ _ Hg). by apply Hf.
  - rewrite (bind_st_Err _ _ _ _ _ Hg). subst e'. reflexivity.
Qed.

Lemma read_row_inv (h : heap) (v : val) (r : row) :
  read_row h v = Some r ->
  exists vs, read_list h v = Some vs /\ Forall2 (fun v x => v = VFloat x) vs r.
Proof.
  unfold read_row. destruct (read_list h v) as [vs|]; [|discriminate]. simpl.
  intros Hm. exists vs. split; [reflexivity|].
  apply mapM_Some in Hm. eapply Forall2_impl; [exact Hm|].
  intros [x|l] y; simpl; [by intros [= ->] | discriminate].
Qed.

Lemma read_channel_inv (h : heap) (v : val) (c : channel) :
  read_channel h v = Some c ->
  exists vs, read_list h v = Some vs /\ Forall2 (fun v r => read_row h v = Some r) vs c.
Proof.
  unfold read_channel. destruct (read_list h v) as [vs|]; [|discriminate]. simpl.
  intros Hm. exists vs. split; [reflexivity|]. by apply mapM_Some in Hm.
Qed.

Lemma read_tensor_inv (h : heap) (v : val) (t : tensor) :
  read_tensor h v = Some t ->
  exists vs, read_list h v = Some vs /\ Forall2 (fun v c => read_channel h v = Some c) vs t.
Proof.
  unfold read_tensor. destruct (read_list h v) as [vs|]; [|discriminate]. simpl.
  intros Hm. exists vs. split; [reflexivity|]. by apply mapM_Some in Hm.
Qed.

Lemma read_weights_inv (h : heap) (v : val) (ws : weights) :
  read_weights h v = Some ws ->
  exists vs, read_list h v = Some vs /\ Forall2 (fun v t => read_tensor h v = Some t) vs ws.
Proof.
  unfold read_weights. destruct (read_list h v) as [vs|]; [|discriminate]. simpl.
  intros Hm. exists vs. split; [reflexivity|]. by apply mapM_Some in Hm.
Qed.

Lemma read_layer_inv (h : heap) (self : val) (L : ConvolutionLayer) :
  read_layer h self = Some L ->
  exists l a, self = VRef l /\ h !! l = Some (OLayer a) /\
    read_weights h (kernel_weights a) = Some (kernel_weights L) /\
    kernel_size a = kernel_size L /\ stride a = stride L /\
    padding_mode a = padding_mode L /\ input_channels a = input_channels L /\
    output_channels a = output_channels L.
Proof.
  unfold read_layer. destruct self as [x|l]; [discriminate|].
  destruct (h !! l) as [[vs|a]|] eqn:Hl; try discriminate.
  destruct (read_weights h (kernel_weights a)) as [ws|] eqn:Hws; [|discriminate].
  simpl. intros [= <-]. exists l, a. simpl. by repeat split.
Qed.

Lemma attr_read {A} (h : heap) (l : nat) (a : Layer val) (f : Layer val -> A) :
  h !! l = Some (OLayer a) -> attr (VRef l) f h = (Ok (f a), h).
Proof. intros Hl. unfold attr. rewrite Hl. reflexivity. Qed.

Lemma result_bind_ret {A} (r : result A) : (r ≫= fun x => Ok x) = r.
Proof. by destruct r. Qed.

Section store_cell.
Variable h : heap.
Variable self_l : nat.
Variable a : Layer val.
Variable L : ConvolutionLayer.
Variable inp : val.
Variable t : tensor.
Variable lv : locals.
Hypothesis Hself : h !! self_l = Some (OLayer a).
Hypothesis Hws : read_weights h (kernel_weights a) = Some (kernel_weights L).
Hypothesis Hk : kernel_size a = kernel_size L.
Hypothesis Hs : stride a = stride L.
Hypothesis Hic : input_channels a = input_channels L.
Hypothesis Hinp : read_tensor h inp = Some t.

Lemma row_item_sim (v : val) (r : row) (i : Z) :
  read_row h v = Some r ->
  (getitem_st v i ≫= float_of) h = (getitem r i, h).
Proof.
  intros Hr. destruct (read_row_inv h v r Hr) as (vs & Hvs & HR).
  rewrite <- (result_bind_ret (getitem r i)).
  apply (getitem_st_sim _ h v vs r i _ _ Hvs HR).
  intros v' x ->. reflexivity.
Qed.

Lemma channel_item_sim (v : val) (c : channel) (i j : Z) :
  read_channel h v = Some c ->
  (getitem_st v i ≫= fun r => getitem_st r j ≫= float_of) h
  = (getitem c i ≫= fun r => getitem r j, h).
Proof.
  intros Hc. destruct (read_channel_inv h v c Hc) as (vs & Hvs & HR).
  apply (getitem_st_sim _ h v vs c i _ _ Hvs HR).
  intros v' r Hr. by apply row_item_sim.
Qed.

Lemma tensor_item_sim (v : val) (t' : tensor) (i j k : Z) :
  read_tensor h v = Some t' ->
  (getitem_st v i ≫= fun c => getitem_st c j ≫= fun r => getitem_st r k ≫= float_of) h
  = (getitem t' i ≫= fun c => getitem c j ≫= fun r => getitem r k, h).
Proof.
  intros Ht. destruct (read_tensor_inv h v t' Ht) as (vs & Hvs & HR).
  apply (getitem_st_sim _ h v vs t' i _ _ Hvs HR).
  intros v' c Hc. by apply channel_item_sim.
Qed.

Lemma pixel_value_st_sim (ic hi wi : Z) :
  pixel_value_st inp lv ic hi wi h = (pixel_value t lv ic hi wi, h).
Proof.
  unfold pixel_value_st, pixel_value. destruct (_ && _); [|reflexivity].
  by apply tensor_item_sim.
Qed.

Lemma weight_st_sim (oc ic kh kw : Z) :
  weight_st (VRef self_l) oc ic kh kw h = (weight L oc ic kh kw, h).
Proof.
  unfold weight_st, weight.
  rewrite (bind_st_Ok _ _ _ _ _ (attr_read h self_l a kernel_weights Hself)).
  destruct (read_weights_inv h _ _ Hws) as (vs & Hvs & HR).
  apply (getitem_st_sim _ h _ vs (kernel_weights L) oc _ _ Hvs HR).
  intros v' t' Ht'. by apply tensor_item_sim.
Qed.

Lemma accumulate_st_sim (oc oh ow ic kh : Z) (acc : float) (kw : Z) :
  accumulate_st (VRef self_l) inp lv oc oh ow ic kh acc kw h
  = (accumulate L t lv oc oh ow ic kh acc kw, h).
Proof.
  unfold accumulate_st, accumulate.
  rewrite (bind_st_Ok _ _ _ _ _ (attr_read h self_l a stride Hself)).
  rewrite (bind_st_Ok _ _ _ _ _ (attr_read h self_l a stride Hself)).
  rewrite Hs. cbv zeta.
  apply bind_st_pure; [apply pixel_value_st_sim|]. intros p _.
  apply bind_st_pure; [apply weight_st_sim|]. intros w _. reflexivity.
Qed.

Lemma cell_sum_st_sim (oc oh ow : Z) :
  cell_sum_st (VRef self_l) inp lv oc oh ow h = (cell_sum L t lv oc oh ow, h).
Proof.
  unfold cell_sum_st, cell_sum.
  rewrite (bind_st_Ok _ _ _ _ _ (attr_read h self_l a input_channels Hself)).
  rewrite Hic. apply foldM_st_pure. intros acc ic _.
  rewrite (bind_st_Ok _ _ _ _ _ (attr_read h self_l a kernel_size Hself)).
  rewrite Hk. apply foldM_st_pure. intros acc' kh _.
  rewrite (bind_st_Ok _ _ _ _ _ (attr_read h self_l a kernel_size Hself)).
  rewrite Hk. apply foldM_st_pure. intros acc'' kw _.
  apply accumulate_st_sim.
Qed.
End store_cell.

(** ** The object store: the layout of a tensor *)

Lemma length_channel_objs (n : nat) (c : channel) :
  length (channel_objs n c) = S (length c).
Proof. unfold channel_objs. rewrite length_app, length_fmap. simpl. lia. Qed.

Lemma chunk_start_shift (n : nat) (t : tensor) (i : nat) :
  chunk_start n t i = (n + chunk_start 0 t i)%nat.
Proof.
  revert n i. induction t as [|c t IH]; intros n i.
  - destruct i; simpl; lia.
  - destruct i as [|i]; simpl; [lia|].
    rewrite (IH (n + S (length c))%nat), (IH (S (length c))). lia.
Qed.

Lemma length_channel_locs (n : nat) (t : tensor) : length (channel_locs n t) = length t.
Proof.
  revert n. induction t as [|c t IH]; intros n; [reflexivity|].
  simpl. f_equal. apply IH.
Qed.

Lemma chunk_in_objs (n : nat) (t : tensor) (i : nat) (c : channel) :
  t !! i = Some c ->
  (chunk_start 0 t i + S (length c) <= length (channels_objs n t))%nat.
Proof.
  revert n i. induction t as [|c0 t IH]; intros n i Hi; [discriminate|].
  simpl. rewrite length_app, length_channel_objs.
  destruct i as [|i]; simpl in *.
  - injection Hi as ->. lia.
  - rewrite (chunk_start_shift (S (length c0))).
    pose proof (IH (n + S (length c0))%nat i Hi). lia.
Qed.

Lemma lookup_channel_locs (n : nat) (t : tensor) (i : nat) (c : channel) :
  t !! i = Some c ->
  channel_locs n t !! i = Some (chunk_start n t i + length c)%nat.
Proof.
  revert n i. induction t as [|c0 t IH]; intros n i Hi; [discriminate|].
  destruct i as [|i]; simpl in *.
  - by injection Hi as ->.
  - by apply IH.
Qed.

(** The list object of channel [i] holds the addresses of its rows. *)
Lemma lookup_channel_obj (n : nat) (t : tensor) (i : nat) (c : channel) :
  t !! i = Some c ->
  channels_objs n t !! (chunk_start 0 t i + length c)%nat
  = Some (OList (VRef <$> seq (chunk_start n t i) (length c))).
Proof.
  revert n i. induction t as [|c0 t IH]; intros n i Hi; [discriminate|].
  destruct i as [|i]; simpl in *.
  - injection Hi as ->.
    rewrite lookup_app_l by (rewrite length_channel_objs; lia).
    unfold channel_objs.
    rewrite lookup_app_r by (rewrite length_fmap; lia).
    rewrite length_fmap, Nat.sub_diag. reflexivity.
  - rewrite (chunk_start_shift (S (length c0))).
    rewrite lookup_app_r by (rewrite length_channel_objs; lia).
    rewrite length_channel_objs.
    replace (S (length c0) + chunk_start 0 t i + length c - S (length c0))%nat
      with (chunk_start 0 t i + length c)%nat by lia.
    by apply IH.
Qed.

(** Row [j] of channel [i] sits [j] objects after the start of the channel. *)
Lemma lookup_row_obj (n : nat) (t : tensor) (i j : nat) (c : channel) (r : row) :
  t !! i = Some c -> c !! j = Some r ->
  channels_objs n t !! (chunk_start 0 t i + j)%nat = Some (row_obj r).
Proof.
  revert n i. induction t as [|c0 t IH]; intros n i Hi Hj; [discriminate|].
  pose proof (lookup_lt_Some _ _ _ Hj) as Hlt.
  destruct i as [|i]; simpl in *.
  - injection Hi as ->.
    rewrite lookup_app_l by (rewrite length_channel_objs; lia).
    unfold channel_objs.
    rewrite lookup_app_l by (rewrite length_fmap; lia).
    rewrite list_lookup_fmap, Hj. reflexivity.
  - rewrite (chunk_start_shift (S (length c0))).
    rewrite lookup_app_r by (rewrite length_channel_objs; lia).
    rewrite length_channel_objs.
    replace (S (length c0) + chunk_start 0 t i + j - S (length c0))%nat
      with (chunk_start 0 t i + j)%nat by lia.
    by apply IH.
Qed.

(** Writing a row object is writing that row of the tensor; no address moves. *)
Lemma insert_row_obj (n : nat) (t : tensor) (i j : nat) (c : channel) (r r' : row) :
  t !! i = Some c -> c !! j = Some r ->
  <[(chunk_start 0 t i + j)%nat := row_obj r']> (channels_objs n t)
  = channels_objs n (<[i := <[j := r']> c]> t).
Proof.
  revert n i. induction t as [|c0 t IH]; intros n i Hi Hj; [discriminate|].
  pose proof (lookup_lt_Some _ _ _ Hj) as Hlt.
  destruct i as [|i]; simpl in *.
  - injection Hi as ->. rewrite length_insert.
    rewrite insert_app_l by (rewrite length_channel_objs; lia). f_equal.
    unfold channel_objs. rewrite length_insert.
    rewrite insert_app_l by (rewrite length_fmap; lia).
    rewrite list_fmap_insert. reflexivity.
  - rewrite (chunk_start_shift (S (length c0))).
    rewrite insert_app_r_alt by (rewrite length_channel_objs; lia).
    rewrite length_channel_objs.
    replace (S (length c0) + chunk_start 0 t i + j - S (length c0))%nat
      with (chunk_start 0 t i + j)%nat by lia.
    f_equal. by apply IH.
Qed.

Lemma channel_locs_insert (n : nat) (t : tensor) (i j : nat) (c : channel) (r' : row) :
  t !! i = Some c ->
  channel_locs n (<[i := <[j := r']> c]> t) = channel_locs n t.
Proof.
  revert n i. induction t as [|c0 t IH]; intros n i Hi; [discriminate|].
  destruct i as [|i]; simpl in *.
  - injection Hi as ->. rewrite length_insert. reflexivity.
  - f_equal. by apply IH.
Qed.

Lemma tensor_objs_insert (n : nat) (t : tensor) (i j : nat) (c : channel) (r r' : row) :
  t !! i = Some c -> c !! j = Some r ->
  <[(chunk_start 0 t i + j)%nat := row_obj r']> (tensor_objs n t)
  = tensor_objs n (<[i := <[j := r']> c]> t).
Proof.
  intros Hi Hj. unfold tensor_objs.
  pose proof (chunk_in_objs n t i c Hi). pose proof (lookup_lt_Some _ _ _ Hj).
  rewrite insert_app_l by lia.
  rewrite (insert_row_obj n t i j c r r' Hi Hj), (channel_locs_insert n t i j c r' Hi).
  reflexivity.
Qed.

(** ** The object store: writing an output cell *)

Lemma getitem_pyindex {A} (l : list A) (i : Z) :
  getitem l i =
  match pyindex (len l) i with
  | Some j => match l !! j with Some x => Ok x | None => Err IndexError end
  | None => Err IndexError
  end.
Proof. unfold getitem, pyindex. cbv zeta. destruct (_ || _); reflexivity. Qed.

Lemma setitem_pyindex {A} (l : list A) (i : Z) (v : A) :
  setitem l i v =
  match pyindex (len l) i with
  | Some j => Ok (<[j := v]> l)
  | None => Err IndexError
  end.
Proof. unfold setitem, pyindex. cbv zeta. destruct (_ || _); reflexivity. Qed.

Lemma pyindex_lt {A} (l : list A) (i : Z) (j : nat) :
  pyindex (len l) i = Some j -> (j < length l)%nat.
Proof.
  unfold pyindex, len. cbv zeta.
  destruct (_ || _) eqn:Hb; [discriminate|]. intros [= <-].
  apply orb_false_iff in Hb as [H1 H2].
  apply Z.ltb_ge in H1. apply Z.leb_gt in H2. lia.
Qed.

Lemma len_fmap {A B} (f : A -> B) (l : list A) : len (f <$> l) = len l.
Proof. unfold len. by rewrite length_fmap. Qed.

Lemma getitem_st_deref (h : heap) (v : val) (vs : list val) (i : Z) :
  deref v h = (Ok vs, h) -> getitem_st v i h = (getitem vs i, h).
Proof. intros Hd. unfold getitem_st. rewrite (bind_st_Ok _ _ _ _ _ Hd). reflexivity. Qed.

Section store_write.
Variable pre post : heap.
Variable out : tensor.
Let n := length pre.
Let hc := pre ++ tensor_objs n out ++ post.

Lemma lookup_tensor_obj :
  hc !! tensor_loc n out = Some (OList (VRef <$> channel_locs n out)).
Proof.
  unfold hc, tensor_loc, tensor_objs.
  rewrite lookup_app_r by lia.
  replace (n + length (channels_objs n out) - length pre)%nat
    with (length (channels_objs n out) + 0)%nat by (unfold n; lia).
  rewrite lookup_app_l by (rewrite length_app; simpl; lia).
  rewrite lookup_app_r by lia.
  replace (length (channels_objs n out) + 0 - length (channels_objs n out))%nat
    with 0%nat by lia.
  reflexivity.
Qed.

Lemma lookup_in_tensor (p : nat) (o : obj) :
  channels_objs n out !! p = Some o -> hc !! (n + p)%nat = Some o.
Proof.
  intros Hp. unfold hc, tensor_objs.
  rewrite lookup_app_r by (unfold n; lia).
  replace (n + p - length pre)%nat with p by (unfold n; lia).
  pose proof (lookup_lt_Some _ _ _ Hp).
  rewrite lookup_app_l by (rewrite length_app; simpl; lia).
  rewrite lookup_app_l by lia. exact Hp.
Qed.

Lemma insert_in_tensor (p : nat) (o : obj) :
  (p < length (channels_objs n out))%nat ->
  <[(n + p)%nat := o]> hc = pre ++ <[p := o]> (tensor_objs n out) ++ post.
Proof.
  intros Hp. unfold hc.
  rewrite insert_app_r_alt by (unfold n; lia).
  replace (n + p - length pre)%nat with p by (unfold n; lia).
  rewrite insert_app_l by (unfold tensor_objs; rewrite length_app; simpl; lia).
  reflexivity.
Qed.

(** The in-place write of line 95 on the laid out tensor is the update of
    that cell, and fails where the update fails. *)
Lemma store_st_sim (oc oh ow : Z) (v : float) :
  store_st (VRef (tensor_loc n out)) oc oh ow v hc
  = match store out oc oh ow v with
    | Ok out' => (Ok tt, pre ++ tensor_objs n out' ++ post)
    | Err e => (Err e, hc)
    end
  /\ forall out', store out oc oh ow v = Ok out' ->
       length (channels_objs n out') = length (channels_objs n out).
Proof.
  unfold store_st, store.
  (* output_image[out_c] *)
  assert (G1 : getitem_st (VRef (tensor_loc n out)) oc hc
               = (getitem (VRef <$> channel_locs n out) oc, hc)).
  { apply getitem_st_deref. unfold deref. rewrite lookup_tensor_obj. reflexivity. }
  rewrite getitem_pyindex, len_fmap in G1. rewrite (getitem_pyindex out).
  replace (len (channel_locs n out)) with (len out) in G1
    by (unfold len; by rewrite length_channel_locs).
  destruct (pyindex (len out) oc) as [i|] eqn:Hi;
    [|rewrite (bind_st_Err _ _ _ _ _ G1); split; [reflexivity|discriminate]].
  destruct (lookup_lt_is_Some_2 out i (pyindex_lt _ _ _ Hi)) as [c Hc].
  rewrite list_lookup_fmap, (lookup_channel_locs n out i c Hc) in G1. simpl in G1.
  rewrite (bind_st_Ok _ _ _ _ _ G1), Hc. cbn [mbind result_bind].
  (* ...[out_h] *)
  assert (G2 : getitem_st (VRef (chunk_start n out i + length c)) oh hc
               = (getitem (VRef <$> seq (chunk_start n out i) (length c)) oh, hc)).
  { apply getitem_st_deref. unfold deref.
    rewrite (chunk_start_shift n), <- Nat.add_assoc.
    rewrite (lookup_in_tensor _ _ (lookup_channel_obj n out i c Hc)).
    rewrite <- chunk_start_shift. reflexivity. }
  rewrite getitem_pyindex, len_fmap in G2. rewrite (getitem_pyindex c).
  replace (len (seq (chunk_start n out i) (length c))) with (len c) in G2
    by (unfold len; by rewrite length_seq).
  destruct (pyindex (len c) oh) as [j|] eqn:Hj;
    [|rewrite (bind_st_Err _ _ _ _ _ G2); split; [reflexivity|discriminate]].
  pose proof (pyindex_lt _ _ _ Hj) as Hjlt.
  destruct (lookup_lt_is_Some_2 c j Hjlt) as [r Hr].
  rewrite list_lookup_fmap, lookup_seq_lt in G2 by assumption. simpl in G2.
  rewrite (bind_st_Ok _ _ _ _ _ G2), Hr. cbn [mbind result_bind].
  (* ...[out_w] = current_sum *)
  assert (Hd3 : deref (VRef (chunk_start n out i + j)) hc = (Ok (VFloat <$> r), hc)).
  { unfold deref. rewrite (chunk_start_shift n), <- Nat.add_assoc.
    rewrite (lookup_in_tensor _ _ (lookup_row_obj n out i j c r Hc Hr)).
    reflexivity. }
  unfold setitem_st. rewrite (bind_st_Ok _ _ _ _ _ Hd3).
  rewrite (setitem_pyindex (VFloat <$> r)), (setitem_pyindex r), len_fmap.
  destruct (pyindex (len r) ow) as [k|] eqn:Hk; [|split; [reflexivity|discriminate]].
  cbn [mbind result_bind]. rewrite setitem_pyindex, Hj. cbn [mbind result_bind].
  rewrite setitem_pyindex, Hi.
  pose proof (chunk_in_objs n out i c Hc) as Hin.
  split.
  - unfold mbind, M_bind, lift, write. f_equal.
    rewrite (chunk_start_shift n), <- Nat.add_assoc.
    rewrite insert_in_tensor by lia.
    rewrite <- list_fmap_insert.
    change (OList (VFloat <$> <[k:=v]> r)) with (row_obj (<[k:=v]> r)).
    rewrite (tensor_objs_insert n out i j c r _ Hc Hr). reflexivity.
  - intros out' [= <-].
    rewrite <- (insert_row_obj n out i j c r (<[k:=v]> r) Hc Hr).
    apply length_insert.
Qed.
End store_write.

(** ** The object store: allocating and reading back *)

Lemma mapM_st_ext {A B} (f g : A -> M B) (l : list A) (h : heap) :
  (forall x h', f x h' = g x h') -> mapM_st f l h = mapM_st g l h.
Proof.
  intros Hfg. revert h. induction l as [|x l IH]; intros h; [reflexivity|].
  cbn [mapM_st]. unfold mbind, M_bind. rewrite Hfg.
  destruct (g x h) as [[y|e] h']; [|reflexivity].
  rewrite IH. reflexivity.
Qed.

Lemma mapM_st_fmap {A B C} (f : A -> B) (g : B -> M C) (l : list A) (h : heap) :
  mapM_st g (f <$> l) h = mapM_st (fun x => g (f x)) l h.
Proof.
  revert h. induction l as [|x l IH]; intros h; [reflexivity|].
  cbn [mapM_st fmap list_fmap]. unfold mbind, M_bind.
  destruct (g (f x) h) as [[y|e] h']; [|reflexivity].
  rewrite <- IH. reflexivity.
Qed.

Lemma alloc_rows (c : channel) (h : heap) :
  mapM_st alloc_row c h
  = (Ok (VRef <$> seq (length h) (length c)), h ++ (row_obj <$> c)).
Proof.
  revert h. induction c as [|r c IH]; intros h.
  - simpl. rewrite app_nil_r. reflexivity.
  - cbn [mapM_st]. unfold mbind, M_bind, alloc_row, alloc at 1.
    rewrite IH, length_app. simpl.
    rewrite <- app_assoc, Nat.add_1_r. reflexivity.
Qed.

Lemma alloc_channel_spec (c : channel) (h : heap) :
  alloc_channel c h
  = (Ok (VRef (length h + length c)), h ++ channel_objs (length h) c).
Proof.
  unfold alloc_channel. rewrite (bind_st_Ok _ _ _ _ _ (alloc_rows c h)).
  unfold alloc, channel_objs. rewrite length_app, length_fmap, <- app_assoc.
  reflexivity.
Qed.

Lemma alloc_channels (t : tensor) (h : heap) :
  mapM_st alloc_channel t h
  = (Ok (VRef <$> channel_locs (length h) t), h ++ channels_objs (length h) t).
Proof.
  revert h. induction t as [|c t IH]; intros h.
  - simpl. rewrite app_nil_r. reflexivity.
  - cbn [mapM_st]. unfold mbind, M_bind at 1. rewrite alloc_channel_spec.
    unfold M_bind. rewrite IH, length_app, length_channel_objs. simpl.
    rewrite <- app_assoc. reflexivity.
Qed.

Lemma alloc_tensor_spec (t : tensor) (h : heap) :
  alloc_tensor t h
  = (Ok (VRef (tensor_loc (length h) t)), h ++ tensor_objs (length h) t).
Proof.
  unfold alloc_tensor. rewrite (bind_st_Ok _ _ _ _ _ (alloc_channels t h)).
  unfold alloc, tensor_loc, tensor_objs. rewrite length_app, <- app_assoc.
  reflexivity.
Qed.

Lemma bind_mapM_st_const {A B C D} (f : A -> M C) (g : B -> M C) (c : B) (l : list A)
    (k : list C -> M D) (h : heap) :
  (forall x h', f x h' = g c h') ->
  (mapM_st f l ≫= k) h = (mapM_st g ((fun _ => c) <$> l) ≫= k) h.
Proof.
  intros Hfg. unfold mbind, M_bind.
  rewrite mapM_st_fmap, (mapM_st_ext f (fun _ => g c)) by exact Hfg. reflexivity.
Qed.

(** The comprehensions of lines 75-78 lay out the zero tensor. *)
Lemma zeros_st_spec (h : heap) (self_l : nat) (a : Layer val) (L : ConvolutionLayer)
    (lv : locals) :
  h !! self_l = Some (OLayer a) -> output_channels a = output_channels L ->
  zeros_st (VRef self_l) lv h = alloc_tensor (zeros L lv) h.
Proof.
  intros Hself Hoc. unfold zeros_st, alloc_tensor, zeros.
  rewrite (bind_st_Ok _ _ _ _ _ (attr_read h self_l a output_channels Hself)), Hoc.
  apply bind_mapM_st_const. intros _ h'. unfold alloc_channel.
  apply bind_mapM_st_const. intros _ h''. unfold alloc_row.
  rewrite <- list_fmap_compose. reflexivity.
Qed.

Lemma mapM_read_float (r : row) : mapM read_float (VFloat <$> r) = Some r.
Proof.
  apply mapM_Some. apply Forall2_fmap_l, Forall2_same_length_lookup_2; [reflexivity|].
  intros i x y Hx Hy. simpl. congruence.
Qed.

(** A laid out tensor reads back as itself, whatever surrounds it. *)
Lemma read_tensor_objs (pre post : heap) (t : tensor) :
  read_tensor (pre ++ tensor_objs (length pre) t ++ post)
              (VRef (tensor_loc (length pre) t)) = Some t.
Proof.
  unfold read_tensor, read_list. cbn [mbind option_bind].
  rewrite (lookup_tensor_obj pre post t). simpl.
  apply mapM_Some, Forall2_fmap_l, Forall2_same_length_lookup_2;
    [apply length_channel_locs|].
  intros i l c Hl Hc. rewrite (lookup_channel_locs (length pre) t i c Hc) in Hl.
  injection Hl as <-.
  unfold compose, read_channel, read_list. cbn beta iota.
  rewrite (chunk_start_shift (length pre)), <- Nat.add_assoc.
  rewrite (lookup_in_tensor pre post t _ _ (lookup_channel_obj (length pre) t i c Hc)). simpl.
  apply mapM_Some, Forall2_fmap_l, Forall2_same_length_lookup_2;
    [apply length_seq|].
  intros j l r Hl Hr. pose proof (lookup_lt_Some _ _ _ Hr) as Hlt.
  rewrite lookup_seq_lt in Hl by assumption. injection Hl as <-.
  unfold compose, read_row, read_list. cbn beta iota.
  rewrite (chunk_start_shift (length pre)), <- Nat.add_assoc.
  rewrite (lookup_in_tensor pre post t _ _ (lookup_row_obj (length pre) t i j c r Hc Hr)). simpl.
  apply mapM_read_float.
Qed.

(** What was read from a store is read from every extension of it. *)
Lemma read_list_app (h k : heap) (v : val) (vs : list val) :
  read_list h v = Some vs -> read_list (h ++ k) v = Some vs.
Proof.
  unfold read_list. destruct v as [x|l]; [discriminate|].
  destruct (h !! l) as [o|] eqn:Hl; [|discriminate].
  rewrite (lookup_app_l_Some _ _ _ _ Hl). tauto.
Qed.

Lemma read_row_app (h k : heap) (v : val) (r : row) :
  read_row h v = Some r -> read_row (h ++ k) v = Some r.
Proof.
  unfold read_row. destruct (read_list h v) as [vs|] eqn:Hv; [|discriminate].
  rewrite (read_list_app _ k _ _ Hv). tauto.
Qed.

Lemma read_channel_app (h k : heap) (v : val) (c : channel) :
  read_channel h v = Some c -> read_channel (h ++ k) v = Some c.
Proof.
  unfold read_channel. destruct (read_list h v) as [vs|] eqn:Hv; [|discriminate].
  rewrite (read_list_app _ k _ _ Hv). simpl. rewrite !mapM_Some.
  intros H. eapply Forall2_impl; [exact H|]. intros v' r. apply read_row_app.
Qed.

Lemma read_tensor_app (h k : heap) (v : val) (t : tensor) :
  read_tensor h v = Some t -> read_tensor (h ++ k) v = Some t.
Proof.
  unfold read_tensor. destruct (read_list h v) as [vs|] eqn:Hv; [|discriminate].
  rewrite (read_list_app _ k _ _ Hv). simpl. rewrite !mapM_Some.
  intros H. eapply Forall2_impl; [exact H|]. intros v' c. apply read_channel_app.
Qed.

Lemma read_weights_app (h k : heap) (v : val) (ws : weights) :
  read_weights h v = Some ws -> read_weights (h ++ k) v = Some ws.
Proof.
  unfold read_weights. destruct (read_list h v) as [vs|] eqn:Hv; [|discriminate].
  rewrite (read_list_app _ k _ _ Hv). simpl. rewrite !mapM_Some.
  intros H. eapply Forall2_impl; [exact H|]. intros v' t. apply read_tensor_app.
Qed.

Lemma read_layer_app (h k : heap) (self : val) (L : ConvolutionLayer) :
  read_layer h self = Some L -> read_layer (h ++ k) self = Some L.
Proof.
  unfold read_layer. destruct self as [x|l]; [discriminate|].
  destruct (h !! l) as [[vs|a]|] eqn:Hl; try discriminate.
  rewrite (lookup_app_l_Some _ _ _ _ Hl).
  destruct (read_weights h (kernel_weights a)) as [ws|] eqn:Hws; [|discriminate].
  rewrite (read_weights_app _ k _ _ Hws). tauto.
Qed.

(** ** The object store: the loop nest *)

(** A loop on the store simulates a loop on a state [s] that an invariant
    ties to the store; when the loop leaves with an exception the invariant
    still holds for some state. *)
Lemma foldM_st_sim {S A} (I : heap -> S -> Prop) (body_st : unit -> A -> M unit)
    (body : S -> A -> result S) (l : list A) :
  (forall h s x, x ∈ l -> I h s ->
     match body s x with
     | Ok s' => exists h', body_st tt x h = (Ok tt, h') /\ I h' s'
     | Err e => exists h' s', body_st tt x h = (Err e, h') /\ I h' s'
     end) ->
  forall h s, I h s ->
    match foldM body l s with
    | Ok s' => exists h', foldM_st body_st l tt h = (Ok tt, h') /\ I h' s'
    | Err e => exists h' s', foldM_st body_st l tt h = (Err e, h') /\ I h' s'
    end.
Proof.
  induction l as [|x l IH]; intros Hstep h s HI.
  - simpl. exists h. split; [reflexivity | exact HI].
  - cbn [foldM foldM_st].
    pose proof (Hstep h s x (list_elem_of_here _ _) HI) as Hx.
    destruct (body s x) as [s1|e]; cbn [mbind result_bind].
    + destruct Hx as (h1 & Hb & HI1).
      rewrite (bind_st_Ok _ _ _ _ _ Hb).
      apply IH; [|exact HI1].
      intros h' s' y Hy. apply Hstep. by apply list_elem_of_further.
    + destruct Hx as (h1 & s1 & Hb & HI1).
      rewrite (bind_st_Err _ _ _ _ _ Hb). by exists h1, s1.
Qed.

Section store_fill.
Variable pre post : heap.
Variable self_l : nat.
Variable a : Layer val.
Variable L : ConvolutionLayer.
Variable inp : val.
Variable t : tensor.
Variable lv : locals.
Variable m : nat.
Hypothesis Hself : pre !! self_l = Some (OLayer a).
Hypothesis Hws : read_weights pre (kernel_weights a) = Some (kernel_weights L).
Hypothesis Hk : kernel_size a = kernel_size L.
Hypothesis Hs : stride a = stride L.
Hypothesis Hic : input_channels a = input_channels L.
Hypothesis Hoc : output_channels a = output_channels L.
Hypothesis Hinp : read_tensor pre inp = Some t.

(** The store holds everything it held before the call, then the output
    tensor at a fixed address. *)
Let I (h : heap) (out : tensor) : Prop :=
  h = pre ++ tensor_objs (length pre) out ++ post /\
  length (channels_objs (length pre) out) = m.

Lemma fill_cell_sim (oc oh ow : Z) (h : heap) (out : tensor) :
  I h out ->
  match (cell_sum L t lv oc oh ow ≫= store out oc oh ow) with
  | Ok out' =>
      exists h', (cell_sum_st (VRef self_l) inp lv oc oh ow
                  ≫= store_st (VRef (length pre + m)) oc oh ow) h = (Ok tt, h') /\ I h' out'
  | Err e =>
      exists h' out', (cell_sum_st (VRef self_l) inp lv oc oh ow
                       ≫= store_st (VRef (length pre + m)) oc oh ow) h = (Err e, h')
                      /\ I h' out'
  end.
Proof.
  intros [-> Hm].
  set (h := pre ++ tensor_objs (length pre) out ++ post).
  assert (Hcs : cell_sum_st (VRef self_l) inp lv oc oh ow h
                = (cell_sum L t lv oc oh ow, h)).
  { apply (cell_sum_st_sim h self_l a L inp t lv); try assumption.
    - by apply lookup_app_l_Some.
    - by apply read_weights_app.
    - by apply read_tensor_app. }
  destruct (cell_sum L t lv oc oh ow) as [cs|e]; cbn [mbind result_bind].
  - rewrite (bind_st_Ok _ _ _ _ _ Hcs).
    destruct (store_st_sim pre post out oc oh ow cs) as [Hst Hlen].
    unfold tensor_loc in Hst. rewrite Hm in Hst. fold h in Hst. rewrite Hst.
    destruct (store out oc oh ow cs) as [out'|e].
    + exists (pre ++ tensor_objs (length pre) out' ++ post).
      split; [reflexivity|]. split; [reflexivity|]. rewrite (Hlen out' eq_refl). exact Hm.
    + exists h, out. split; [reflexivity|]. by split.
  - rewrite (bind_st_Err _ _ _ _ _ Hcs). exists h, out. split; [reflexivity|]. by split.
Qed.

Lemma fill_st_sim (h : heap) (out : tensor) :
  I h out ->
  match fill L t lv out with
  | Ok out' =>
      exists h', fill_st (VRef self_l) inp lv (VRef (length pre + m)) h = (Ok tt, h')
                 /\ I h' out'
  | Err e =>
      exists h' out', fill_st (VRef self_l) inp lv (VRef (length pre + m)) h = (Err e, h')
                      /\ I h' out'
  end.
Proof.
  intros HI. unfold fill_st, fill.
  assert (Hattr : attr (VRef self_l) output_channels h = (Ok (output_channels L), h)).
  { rewrite <- Hoc. apply attr_read. destruct HI as [-> _]. by apply lookup_app_l_Some. }
  rewrite (bind_st_Ok _ _ _ _ _ Hattr).
  apply (foldM_st_sim I); [|exact HI]. intros h1 out1 oc _ HI1.
  apply (foldM_st_sim I); [|exact HI1]. intros h2 out2 oh _ HI2.
  apply (foldM_st_sim I); [|exact HI2]. intros h3 out3 ow _ HI3.
  by apply fill_cell_sim.
Qed.
End store_fill.

(** ** The object store: [forward] *)

Lemma derive_dims_attrs (a : Layer val) (L : ConvolutionLayer) (H W : Z) :
  kernel_size a = kernel_size L -> stride a = stride L ->
  padding_mode a = padding_mode L ->
  derive_dims a H W = derive_dims L H W.
Proof.
  intros Hk Hs Hp. unfold derive_dims, _calculate_padding_amount.
  rewrite Hk, Hs, Hp. reflexivity.
Qed.

Lemma read_list_truthy (h : heap) (v : val) (vs : list val) :
  read_list h v = Some vs -> truthy_st v h = (Ok (truthy vs), h).
Proof.
  intros Hv. unfold truthy_st.
  rewrite (bind_st_Ok _ _ _ _ _ (read_list_deref _ _ _ Hv)). reflexivity.
Qed.

Lemma read_list_len (h : heap) (v : val) (vs : list val) :
  read_list h v = Some vs -> len_st v h = (Ok (len vs), h).
Proof.
  intros Hv. unfold len_st.
  rewrite (bind_st_Ok _ _ _ _ _ (read_list_deref _ _ _ Hv)). reflexivity.
Qed.

Lemma getitem_st_0 (h : heap) (v v0 : val) (vs : list val) :
  read_list h v = Some (v0 :: vs) -> getitem_st v 0 h = (Ok v0, h).
Proof.
  intros Hv. rewrite (getitem_st_deref h v (v0 :: vs)) by by apply read_list_deref.
  rewrite getitem_0. reflexivity.
Qed.

(** [forward] on the store computes what [forward] computes on the values
    behind the engine and the input. When it returns, the store is the old
    store followed by the objects of the returned tensor; when it raises, the
    store is an extension of the old one. *)
Lemma forward_st_sim (h : heap) (self inp : val) (L : ConvolutionLayer) (t : tensor) :
  read_layer h self = Some L -> read_tensor h inp = Some t ->
  match forward L t with
  | Ok out =>
      forward_st self inp h
      = (Ok (VRef (tensor_loc (length h) out)), h ++ tensor_objs (length h) out)
  | Err e => exists k, forward_st self inp h = (Err e, h ++ k)
  end.
Proof.
  intros HL Ht.
  destruct (read_layer_inv h self L HL) as (l & a & -> & Hl & Hws & Hk & Hs & Hp & Hic & Hoc).
  destruct (read_tensor_inv h inp t Ht) as (vs & Hvs & HR).
  assert (Hnil : forall e, exists k, (Err e : result val, h) = (Err e, h ++ k)).
  { intros e. exists []. by rewrite app_nil_r. }
  unfold forward_st, forward.
  rewrite (bind_st_Ok _ _ _ _ _ (read_list_truthy h inp vs Hvs)).
  destruct HR as [|v0 c0 vs' t' Hc0 HR']; cbn [truthy negb]; [apply Hnil|].
  rewrite (bind_st_Ok _ _ _ _ _ (getitem_st_0 h inp v0 vs' Hvs)), getitem_0.
  cbn [mbind result_bind].
  destruct (read_channel_inv h v0 c0 Hc0) as (ws0 & Hws0 & HR0).
  rewrite (bind_st_Ok _ _ _ _ _ (read_list_truthy h v0 ws0 Hws0)).
  destruct HR0 as [|w0 r0 ws0' c0' Hr0 HR0']; cbn [truthy negb]; [apply Hnil|].
  rewrite (bind_st_Ok _ _ _ _ _ (getitem_st_0 h inp v0 vs' Hvs)).
  rewrite (bind_st_Ok _ _ _ _ _ (getitem_st_0 h v0 w0 ws0' Hws0)), getitem_0.
  cbn [mbind result_bind].
  destruct (read_row_inv h w0 r0 Hr0) as (xs & Hxs & HRx).
  rewrite (bind_st_Ok _ _ _ _ _ (read_list_truthy h w0 xs Hxs)).
  destruct HRx as [|x0 y0 xs' r0' Hx0 HRx']; cbn [truthy negb]; [apply Hnil|].
  set (R := y0 :: r0') in *. set (C := R :: c0') in *. set (T := C :: t') in *.
  rewrite (bind_st_Ok _ _ _ _ _ (read_list_len h inp _ Hvs)).
  rewrite (bind_st_Ok _ _ _ _ _ (attr_read h l a input_channels Hl)).
  assert (Hlen : len (v0 :: vs') = len T).
  { unfold T, len. simpl. by rewrite (Forall2_length _ _ _ HR'). }
  rewrite Hlen, Hic.
  destruct (negb (len T =? input_channels L)).
  { rewrite (bind_st_Ok _ _ _ _ _ (attr_read h l a input_channels Hl)).
    rewrite (bind_st_Ok _ _ _ _ _ (read_list_len h inp _ Hvs)).
    rewrite Hlen, Hic. apply Hnil. }
  rewrite (bind_st_Ok _ _ _ _ _ (getitem_st_0 h inp v0 vs' Hvs)).
  rewrite (bind_st_Ok _ _ _ _ _ (read_list_len h v0 _ Hws0)).
  rewrite (bind_st_Ok _ _ _ _ _ (getitem_st_0 h inp v0 vs' Hvs)).
  rewrite (bind_st_Ok _ _ _ _ _ (getitem_st_0 h v0 w0 ws0' Hws0)).
  rewrite (bind_st_Ok _ _ _ _ _ (read_list_len h w0 _ Hxs)).
  rewrite (bind_st_Ok _ _ _ _ _ (attr_read h l a id Hl)).
  assert (Hlen0 : len (w0 :: ws0') = len C).
  { unfold C, len. simpl. by rewrite (Forall2_length _ _ _ HR0'). }
  assert (Hlen1 : len (x0 :: xs') = len R).
  { unfold R, len. simpl. by rewrite (Forall2_length _ _ _ HRx'). }
  rewrite Hlen0, Hlen1. unfold id.
  assert (Hdd : lift (derive_dims a (len C) (len R)) h
                = (derive_dims L (len C) (len R), h)).
  { unfold lift. by rewrite (derive_dims_attrs a L). }
  destruct (derive_dims L (len C) (len R)) as [lv|e];
    cbn [mbind result_bind];
    [rewrite (bind_st_Ok _ _ _ _ _ Hdd) | rewrite (bind_st_Err _ _ _ _ _ Hdd); apply Hnil].
  destruct ((output_height lv <=? 0) || (output_width lv <=? 0)); [apply Hnil|].
  assert (Hz : zeros_st (VRef l) lv h
               = (Ok (VRef (tensor_loc (length h) (zeros L lv))),
                  h ++ tensor_objs (length h) (zeros L lv))).
  { rewrite (zeros_st_spec h l a L lv Hl Hoc). apply alloc_tensor_spec. }
  rewrite (bind_st_Ok _ _ _ _ _ Hz).
  pose proof (fill_st_sim h [] l a L inp T lv
                (length (channels_objs (length h) (zeros L lv)))
                Hl Hws Hk Hs Hic Hoc Ht
                (h ++ tensor_objs (length h) (zeros L lv)) (zeros L lv)) as Hfill.
  cbv zeta beta in Hfill.
  assert (HI0 : h ++ tensor_objs (length h) (zeros L lv)
                = h ++ tensor_objs (length h) (zeros L lv) ++ [] /\
                length (channels_objs (length h) (zeros L lv))
                = length (channels_objs (length h) (zeros L lv)))
    by (split; [by rewrite app_nil_r | reflexivity]).
  specialize (Hfill HI0). clear HI0.
  unfold tensor_loc at 1.
  destruct (fill L T lv (zeros L lv)) as [out|e].
  - destruct Hfill as (h' & Hf & -> & Hm).
    rewrite (bind_st_Ok _ _ _ _ _ Hf). rewrite app_nil_r.
    unfold tensor_loc. rewrite Hm. reflexivity.
  - destruct Hfill as (h' & out' & Hf & -> & Hm).
    rewrite (bind_st_Err _ _ _ _ _ Hf). rewrite app_nil_r. eauto.
Qed.

(** ** More on the forward pass *)

Lemma invariants_constructed (self : ConvolutionLayer) :
  invariants (kernel_size self) (stride self) (padding_mode self)
             (input_channels self) (output_channels self) (kernel_weights self) ->
  constructed self.
Proof.
  intros H. apply violations_nil in H.
  unfold constructed. rewrite init_report, H. destruct self; reflexivity.
Qed.


(** VALID: the output dimension is positive exactly when the kernel fits. *)
Lemma spec_output_dim_VALID_nonpos (self : ConvolutionLayer) (n : Z) :
  0 < stride self -> padding_mode self = VALID ->
  spec_output_dim self n <= 0 <-> n < kernel_size self.
Proof.
  intros Hs Hp. unfold spec_output_dim. rewrite Hp. simpl. split.
  - intros H. destruct (Z.lt_ge_cases n (kernel_size self)) as [Hlt|Hge]; [exact Hlt|].
    pose proof (Z.div_pos (n - kernel_size self) (stride self)). lia.
  - intros H.
    assert ((n - kernel_size self) / stride self < 0)
      by (apply Z.div_lt_upper_bound; lia).
    lia.
Qed.

(** The total padding of an axis in SAME mode lies between
    [kernel_size - stride] and [kernel_size - 1]. *)
Lemma same_total_padding (self : ConvolutionLayer) (n : Z) :
  0 < stride self ->
  let o := math_ceil (Qdiv (inject_Z n) (inject_Z (stride self))) in
  kernel_size self - stride self
  <= (o - 1) * stride self + kernel_size self - n
  <= kernel_size self - 1.
Proof.
  intros Hs o. pose proof (Qceiling_div n (stride self) Hs) as H.
  simpl in H. fold (math_ceil (Qdiv (inject_Z n) (inject_Z (stride self)))) in H.
  fold o in H. lia.
Qed.

Lemma derive_dims_SAME {W} (self : Layer W) (H W' : Z) (lv : locals) :
  0 < stride self -> padding_mode self = SAME ->
  derive_dims self H W' = Ok lv ->
  let oh := math_ceil (Qdiv (inject_Z H) (inject_Z (stride self))) in
  let ow := math_ceil (Qdiv (inject_Z W') (inject_Z (stride self))) in
  output_height lv = oh /\ output_width lv = ow /\
  padding_h lv = _calculate_padding_amount self H oh /\
  padding_w lv = _calculate_padding_amount self W' ow.
Proof.
  intros Hs Hp. unfold derive_dims, truediv. rewrite Hp. simpl.
  replace (stride self =? 0) with false by (symmetry; apply Z.eqb_neq; lia).
  simpl. intros [= <-]. simpl. done.
Qed.

Lemma fold_left_ext_in {A B} (f g : A -> B -> A) (l : list B) (a : A) :
  (forall a' x, x ∈ l -> f a' x = g a' x) -> fold_left f l a = fold_left g l a.
Proof.
  revert a. induction l as [|x l IH]; intros a H; [reflexivity|]. simpl.
  rewrite H by apply list_elem_of_here.
  apply IH. intros a' y Hy. apply H. by apply list_elem_of_further.
Qed.




(** ** The shape of whatever the loop nest returns *)

Lemma foldM_invariant {S A} (P : S -> Prop) (body : S -> A -> result S)
    (l : list A) (s s' : S) :
  (forall s1 x s2, P s1 -> body s1 x = Ok s2 -> P s2) ->
  P s -> foldM body l s = Ok s' -> P s'.
Proof.
  intros Hb. revert s. induction l as [|x l IH]; intros s Hs; simpl.
  - intros [= <-]. exact Hs.
  - destruct (body s x) as [s1|e] eqn:E; simpl; [|discriminate].
    apply IH. exact (Hb s x s1 Hs E).
Qed.

Lemma getitem_Ok_lookup {A} (l : list A) (i : Z) (x : A) :
  getitem l i = Ok x -> exists j, pyindex (len l) i = Some j /\ l !! j = Some x.
Proof.
  rewrite getitem_pyindex. destruct (pyindex (len l) i) as [j|]; [|discriminate].
  destruct (l !! j) as [y|] eqn:E; [|discriminate].
  intros [= <-]. eauto.
Qed.

Lemma setitem_Ok_insert {A} (l : list A) (i : Z) (v : A) (l' : list A) :
  setitem l i v = Ok l' -> exists j, pyindex (len l) i = Some j /\ l' = <[j := v]> l.
Proof.
  rewrite setitem_pyindex. destruct (pyindex (len l) i) as [j|]; [|discriminate].
  intros [= <-]. eauto.
Qed.

Lemma len_insert {A} (l : list A) (j : nat) (v : A) : len (<[j := v]> l) = len l.
Proof. unfold len. by rewrite length_insert. Qed.

(** Line 95 replaces one cell and keeps the shape. *)
Lemma store_has_shape (c h w : Z) (out out' : tensor) (oc oh ow : Z) (v : float) :
  has_shape c h w out -> store out oc oh ow v = Ok out' -> has_shape c h w out'.
Proof.
  intros [Hl Hall]. unfold store.
  destruct (getitem out oc) as [ch|e] eqn:E1; simpl; [|discriminate].
  destruct (getitem ch oh) as [r|e] eqn:E2; simpl; [|discriminate].
  destruct (setitem r ow v) as [r'|e] eqn:E3; simpl; [|discriminate].
  destruct (setitem ch oh r') as [ch'|e] eqn:E4; simpl; [|discriminate].
  intros E5.
  apply getitem_Ok_lookup in E1 as (j1 & _ & L1).
  apply getitem_Ok_lookup in E2 as (j2 & _ & L2).
  apply setitem_Ok_insert in E3 as (j3 & _ & ->).
  apply setitem_Ok_insert in E4 as (j4 & _ & ->).
  apply setitem_Ok_insert in E5 as (j5 & _ & ->).
  destruct (Forall_lookup_1 _ _ _ _ Hall L1) as [Hch Hrows].
  pose proof (Forall_lookup_1 _ _ _ _ Hrows L2) as Hr. simpl in Hr.
  split; [by rewrite len_insert|].
  apply Forall_insert; [exact Hall|].
  split; [by rewrite len_insert|].
  apply Forall_insert; [exact Hrows|].
  by rewrite len_insert.
Qed.

Lemma fill_has_shape (self : ConvolutionLayer) (t : tensor) (lv : locals)
    (c h w : Z) (out out' : tensor) :
  has_shape c h w out -> fill self t lv out = Ok out' -> has_shape c h w out'.
Proof.
  intros Hs. unfold fill.
  apply (foldM_invariant (has_shape c h w)); [|exact Hs]. intros o1 oc o1' H1.
  apply (foldM_invariant (has_shape c h w)); [|exact H1]. intros o2 oh o2' H2.
  apply (foldM_invariant (has_shape c h w)); [|exact H2]. intros o3 ow o3' H3.
  destruct (cell_sum self t lv oc oh ow) as [v|e]; simpl; [|discriminate].
  by apply store_has_shape.
Qed.

Lemma zeros_has_shape (self : ConvolutionLayer) (lv : locals) :
  0 <= output_channels self -> 0 <= output_height lv -> 0 <= output_width lv ->
  has_shape (output_channels self) (output_height lv) (output_width lv) (zeros self lv).
Proof.
  intros Hc Hh Hw. unfold has_shape, zeros. split; [by apply len_fmap_range|].
  apply Forall_fmap, Forall_forall. intros oc _. simpl.
  split; [by apply len_fmap_range|].
  apply Forall_fmap, Forall_forall. intros oh _. simpl.
  by apply len_fmap_range.
Qed.

(** What [forward] returns has the shape derived from the first channel. *)
Lemma forward_Ok_has_shape (self : ConvolutionLayer) (t out : tensor) :
  constructed self -> forward self t = Ok out ->
  0 < spec_output_dim self (height t) /\ 0 < spec_output_dim self (width t) /\
  has_shape (output_channels self) (spec_output_dim self (height t))
            (spec_output_dim self (width t)) out.
Proof.
  intros Hc. rewrite forward_unfold by assumption. cbv zeta.
  destruct (constructed_invariants self Hc) as (_ & _ & _ & _ & Hoc & _).
  destruct (tensor_empty t); [discriminate|].
  destruct (negb _); [discriminate|].
  cbn [output_height output_width spec_locals].
  destruct (_ || _) eqn:E; [discriminate|].
  apply orb_false_iff in E. rewrite !Z.leb_gt in E. destruct E as [Hoh How].
  intros Hf. split; [exact Hoh|]. split; [exact How|].
  eapply fill_has_shape; [|exact Hf].
  apply (zeros_has_shape self (spec_locals self (height t) (width t))); simpl; lia.
Qed.

(** ** Inputs with channels larger than the first one *)









(** ** Printing *)

(** A function of the output that is read piece by piece, of a loop over
    [enumerate(l)] whose rounds do not show their index to it. *)
Lemma bind_enumerate {A B C} (h : B -> list C) (f : Z -> A -> list B)
    (g : A -> list C) (l : list A) :
  (forall i x, x ∈ l -> f i x ≫= h = g x) ->
  (enumerate l ≫= fun '(i, x) => f i x) ≫= h = l ≫= g.
Proof.
  unfold enumerate.
  assert (H : forall k : nat,
            (forall i x, x ∈ l -> f i x ≫= h = g x) ->
            (imap (fun i x => (Z.of_nat (k + i), x)) l ≫= fun '(i, x) => f i x) ≫= h
            = l ≫= g).
  { induction l as [|x l IH]; intros k Hf; [reflexivity|].
    cbn [imap]. rewrite !bind_cons, bind_app.
    rewrite Hf by apply list_elem_of_here. f_equal.
    rewrite <- (IH (S k)) by (intros i y Hy; apply Hf; by apply list_elem_of_further).
    f_equal. f_equal. apply imap_ext. intros i y _. simpl. do 2 f_equal. lia. }
  intros Hf. exact (H 0%nat Hf).
Qed.

Lemma formatted_app (a b : list piece) : formatted (a ++ b) = formatted a ++ formatted b.
Proof. apply bind_app. Qed.

Lemma lines_app (a b : list piece) : lines (a ++ b) = lines a + lines b.
Proof. unfold lines, len. rewrite bind_app, length_app. lia. Qed.

Lemma texts_app (a b : list piece) : texts (a ++ b) = texts a ++ texts b.
Proof. apply bind_app. Qed.

Lemma formatted_values (l : row) :
  formatted (l ≫= fun val => print_end [Fixed 8 2 val]) = (fun x => (8, 2, x)) <$> l.
Proof.
  induction l as [|y l IH]; [reflexivity|].
  rewrite bind_cons, formatted_app, IH. reflexivity.
Qed.

Lemma formatted_print_row (r : row) :
  formatted (print_row r) = (fun x => (8, 2, x)) <$> r.
Proof.
  unfold print_row, print. destruct r as [|x r]; [reflexivity|].
  cbn [truthy negb]. rewrite !formatted_app, formatted_values.
  change (formatted (print_end [Text "  "])) with (@nil (Z * Z * float)).
  change (formatted [Newline]) with (@nil (Z * Z * float)).
  change (formatted []) with (@nil (Z * Z * float)).
  by rewrite !app_nil_r.
Qed.

Lemma lines_print_row (r : row) : lines (print_row r) = 1.
Proof.
  unfold print_row, print, print_end. destruct r as [|x r]; [reflexivity|].
  cbn [truthy negb]. rewrite !lines_app.
  assert (H : forall l : row, lines (l ≫= fun val => [Fixed 8 2 val]) = 0).
  { induction l as [|y l IH]; [reflexivity|].
    rewrite bind_cons, lines_app, IH. reflexivity. }
  rewrite H. reflexivity.
Qed.

Lemma formatted_rows (l : channel) :
  formatted (l ≫= print_row) = (fun x => (8, 2, x)) <$> mjoin l.
Proof.
  induction l as [|r l IH]; [reflexivity|].
  rewrite bind_cons, formatted_app, formatted_print_row, IH.
  cbn [mjoin list_join]. by rewrite fmap_app.
Qed.

Lemma formatted_print_channel (i : Z) (ch : channel) :
  formatted (print_channel i ch) = (fun x => (8, 2, x)) <$> mjoin ch.
Proof.
  unfold print_channel, print. destruct ch as [|r ch]; [reflexivity|].
  cbn [truthy negb]. rewrite !formatted_app, formatted_rows.
  change (formatted [Text "Channel "; Int i; Text ":"]) with (@nil (Z * Z * float)).
  change (formatted [Newline]) with (@nil (Z * Z * float)).
  change (formatted []) with (@nil (Z * Z * float)).
  by rewrite !app_nil_r.
Qed.

Lemma lines_print_channel (i : Z) (ch : channel) :
  lines (print_channel i ch) = 2 + len ch.
Proof.
  unfold print_channel, print. destruct ch as [|r ch]; [reflexivity|].
  cbn [truthy negb]. rewrite !lines_app.
  assert (H : forall l : channel, lines (l ≫= print_row) = len l).
  { induction l as [|y l IH]; [reflexivity|].
    rewrite bind_cons, lines_app, IH, lines_print_row. unfold len. simpl length. lia. }
  rewrite H. change (lines [Text "Channel "; Int i; Text ":"]) with 0.
  change (lines [Newline]) with 1. change (lines []) with 0. lia.
Qed.

(** Past the emptiness test, [print_image_py] writes the header with the
    height and width of the first channel, then the channels. *)
Lemma print_image_py_nonempty (image : tensor) (label : str) :
  image <> [] ->
  print_image_py image label
  = Ok (print (label ++ [Text " (Channels: "; Int (len image);
                         Text ", Height: "; Int (height image);
                         Text ", Width: "; Int (width image); Text ")"])
        ++ (enumerate image ≫= fun '(c_idx, channel_data) =>
              print_channel c_idx channel_data)).
Proof.
  intros Hne. destruct image as [|c0 t']; [done|].
  unfold print_image_py. cbn [truthy negb]. cbv zeta.
  replace (0 <? len (c0 :: t')) with true
    by (symmetry; apply Z.ltb_lt; unfold len; simpl length; lia).
  rewrite getitem_0. cbn [mbind result_bind].
  destruct c0 as [|r0 c0]; [reflexivity|].
  replace (0 <? len (r0 :: c0)) with true
    by (symmetry; apply Z.ltb_lt; unfold len; simpl length; lia).
  rewrite getitem_0. reflexivity.
Qed.

Lemma formatted_body (image : tensor) :
  formatted (enumerate image ≫= fun '(c_idx, channel_data) =>
               print_channel c_idx channel_data)
  = (fun x => (8, 2, x)) <$> flatten image.
Proof.
  unfold formatted at 1.
  rewrite (bind_enumerate _ print_channel (fun ch => (fun x => (8, 2, x)) <$> mjoin ch))
    by (intros i ch _; apply formatted_print_channel).
  unfold flatten. induction image as [|ch image IH]; [reflexivity|].
  rewrite bind_cons, IH. cbn [mjoin list_join]. by rewrite join_app, fmap_app.
Qed.

Lemma lines_body (image : tensor) :
  lines (enumerate image ≫= fun '(c_idx, channel_data) =>
           print_channel c_idx channel_data)
  = 2 * len image + len (mjoin image).
Proof.
  unfold lines at 1.
  rewrite (bind_enumerate _ print_channel
             (fun ch => print_channel 0 ch ≫= fun p =>
                          match p with Newline => [tt] | _ => [] end)).
  2:{ intros i ch _. unfold print_channel, print. rewrite !bind_app. reflexivity. }
  induction image as [|ch image IH]; [reflexivity|].
  change (mjoin (ch :: image)) with (ch ++ mjoin image).
  pose proof (lines_print_channel 0 ch) as H. unfold lines in H.
  unfold len in IH, H |- *. rewrite bind_cons, !length_app, !Nat2Z.inj_add, H, IH.
  cbn [length]. lia.
Qed.

Lemma len_join {A} (n : Z) (ls : list (list A)) :
  Forall (fun l => len l = n) ls -> len (mjoin ls) = len ls * n.
Proof.
  induction 1 as [|l ls Hl _ IH]; [reflexivity|].
  change (mjoin (l :: ls)) with (l ++ mjoin ls).
  unfold len in Hl, IH |- *. rewrite length_app, Nat2Z.inj_add, Hl, IH.
  cbn [length]. lia.
Qed.

Lemma len_flatten (c h w : Z) (t : tensor) :
  has_shape c h w t -> len (mjoin t) = c * h /\ len (flatten t) = c * h * w.
Proof.
  intros [Hl Hall].
  assert (H1 : len (mjoin t) = c * h).
  { rewrite (len_join h), Hl; [reflexivity|].
    eapply Forall_impl; [exact Hall|]. by intros ch [Hch _]. }
  split; [exact H1|]. unfold flatten. rewrite (len_join w), H1; [reflexivity|].
  apply Forall_join. eapply Forall_impl; [exact Hall|]. by intros ch [_ Hrows].
Qed.

Ltac solve_elem_of :=
  repeat first [apply list_elem_of_here | apply list_elem_of_further].

Lemma texts_values (l : row) :
  texts (l ≫= fun val => print_end [Fixed 8 2 val]) = [].
Proof.
  induction l as [|y l IH]; [reflexivity|].
  rewrite bind_cons, texts_app, IH. reflexivity.
Qed.

Lemma texts_print_row (r : row) :
  0 < len r -> texts (print_row r) = ["  "%string].
Proof.
  intros Hr. unfold print_row, print.
  destruct r as [|x r]; [unfold len in Hr; simpl in Hr; lia|].
  cbn [truthy negb]. rewrite !texts_app, texts_values. reflexivity.
Qed.

Lemma texts_rows (l : channel) :
  Forall (fun r : row => 0 < len r) l ->
  Forall (fun s => s ∈ ["Channel "; ":"; "  "]%string) (texts (l ≫= print_row)).
Proof.
  induction 1 as [|r l Hr _ IH]; [constructor|].
  rewrite bind_cons, texts_app, texts_print_row by assumption.
  constructor; [solve_elem_of | exact IH].
Qed.

(** The literal strings of a channel without empty rows. *)
Lemma texts_print_channel (i : Z) (ch : channel) :
  0 < len ch -> Forall (fun r : row => 0 < len r) ch ->
  Forall (fun s => s ∈ ["Channel "; ":"; "  "]%string) (texts (print_channel i ch)).
Proof.
  intros Hch Hrows. unfold print_channel, print.
  destruct ch as [|r0 ch]; [unfold len in Hch; simpl in Hch; lia|].
  cbn [truthy negb].
  assert (E : texts ([Text "Channel "; Int i; Text ":"] ++ [Newline]
                     ++ ((r0 :: ch) ≫= print_row) ++ [] ++ [Newline])
              = "Channel "%string :: ":"%string :: texts ((r0 :: ch) ≫= print_row)).
  { rewrite !texts_app. simpl. by rewrite app_nil_r. }
  rewrite <- !app_assoc, E.
  do 2 (constructor; [solve_elem_of|]). by apply texts_rows.
Qed.

Lemma texts_body (image : tensor) :
  Forall (fun ch : channel => 0 < len ch /\ Forall (fun r : row => 0 < len r) ch) image ->
  Forall (fun s => s ∈ ["Channel "; ":"; "  "]%string)
    (texts (enumerate image ≫= fun '(c_idx, channel_data) =>
              print_channel c_idx channel_data)).
Proof.
  intros Himg. unfold texts at 1.
  rewrite (bind_enumerate _ print_channel (fun ch => texts (print_channel 0 ch))).
  2:{ intros i ch _. unfold print_channel, print. rewrite !texts_app. reflexivity. }
  induction Himg as [|ch image [Hch Hrows] _ IH]; [constructor|].
  rewrite bind_cons. apply Forall_app_2; [|exact IH].
  by apply texts_print_channel.
Qed.

(** ** The demo *)




Lemma init_outcome (k s p ic oc : Z) (w : weights) :
  (exists self, __init__ k s p ic oc w = Ok self /\ constructed self /\
                kernel_size self = k /\ stride self = s /\ padding_mode self = p /\
                input_channels self = ic /\ output_channels self = oc /\
                kernel_weights self = w)
  \/ (exists m, __init__ k s p ic oc w = Err (ValueError m)).
Proof.
  pose proof (init_report k s p ic oc w) as H.
  destruct (violations k s p ic oc w) as [|m vs] eqn:E; simpl in H.
  - left. eexists. split; [exact H|]. split; [|done].
    unfold constructed. simpl. exact H.
  - right. eauto.
Qed.


Section demo.
Variables K IC OC H W : Z.


Lemma averaging_shaped (v : float) :
  0 <= K -> 0 <= IC -> 0 <= OC -> weights_shaped OC IC K (Main.averaging K IC OC v).
Proof.
  intros HK HIC HOC. unfold weights_shaped, Main.averaging.
  split; [by apply len_fmap_range|].
  apply Forall_fmap, Forall_forall. intros oc _. simpl.
  split; [by apply len_fmap_range|].
  apply Forall_fmap, Forall_forall. intros ic _. simpl.
  split; [by apply len_fmap_range|].
  apply Forall_fmap, Forall_forall. intros kh _. simpl.
  by apply len_fmap_range.
Qed.

(** The guard of line 150 makes the assignment of line 151 safe, and keeps
    the shape of the weights. *)
Lemma centre_tap_Ok (v : float) :
  exists w, Main.centre_tap K IC OC (Main.averaging K IC OC v) = Ok w /\
            (0 < K -> 0 < IC -> 0 < OC -> weights_shaped OC IC K w).
Proof.
  unfold Main.centre_tap.
  destruct ((1 <? IC) && (K =? 3) && (0 <? OC)) eqn:G.
  2:{ eexists. split; [reflexivity|]. intros. apply averaging_shaped; lia. }
  apply andb_true_iff in G as [G HOC]. apply andb_true_iff in G as [HIC HK].
  apply Z.ltb_lt in HIC, HOC. apply Z.eqb_eq in HK.
  pose proof (averaging_shaped v ltac:(lia) ltac:(lia) ltac:(lia)) as [Hl Hall].
  destruct (getitem_in_range (Main.averaging K IC OC v) 0) as (w0 & L0 & G0); [lia|].
  destruct (Forall_lookup_1 _ _ _ _ Hall L0) as [Hl0 Hall0].
  rewrite G0. cbn [mbind result_bind].
  rewrite (setitem_nat w0 1) by (unfold len in Hl0; lia).
  cbn [mbind result_bind].
  rewrite (setitem_nat _ 0) by (unfold len in Hl; lia).
  eexists. split; [reflexivity|]. intros _ _ _.
  split; [by rewrite len_insert|].
  apply Forall_insert; [exact Hall|].
  split; [by rewrite len_insert|].
  apply Forall_insert; [exact Hall0|].
  rewrite HK. split; [reflexivity|]. repeat constructor.
Qed.





End demo.

(** ** The constructor on the object store *)

Lemma for_st_sim {B} (R : val -> B -> Prop) (h : heap) (v : val) (vs : list val)
    (xs : list B) (body_st : val -> M unit) (body : B -> result unit) :
  read_list h v = Some vs -> Forall2 R vs xs ->
  (forall v' x, R v' x -> body_st v' h = (body x, h)) ->
  for_st v body_st h = (forM_ body xs, h).
Proof.
  intros Hv HR Hb. unfold for_st, forM_.
  rewrite (bind_st_Ok _ _ _ _ _ (read_list_deref _ _ _ Hv)). clear Hv.
  induction HR as [|v' x vs' xs' Hx _ IH]; [reflexivity|].
  cbn [foldM_st foldM]. apply bind_st_pure; [by apply Hb|].
  intros [] _. exact IH.
Qed.

Lemma Forall2_len {A B} (R : A -> B -> Prop) (l : list A) (k : list B) :
  Forall2 R l k -> len l = len k.
Proof. intros H. unfold len. by rewrite (Forall2_length _ _ _ H). Qed.

Section init_st.
Variable h : heap.
Variable l : nat.
Variable a : Layer val.
Variable L : ConvolutionLayer.
Hypothesis Ha : h !! l = Some (OLayer a).
Hypothesis Hk : kernel_size a = kernel_size L.
Hypothesis Hic : input_channels a = input_channels L.
Hypothesis Hoc : output_channels a = output_channels L.

Lemma check_k_row_st_sim (v : val) (r : row) :
  read_row h v = Some r -> check_k_row_st (VRef l) v h = (check_k_row L r, h).
Proof.
  intros Hr. destruct (read_row_inv h v r Hr) as (vs & Hvs & HR).
  unfold check_k_row_st, check_k_row.
  rewrite (bind_st_Ok _ _ _ _ _ (read_list_len h v vs Hvs)).
  rewrite (bind_st_Ok _ _ _ _ _ (attr_read h l a kernel_size Ha)).
  rewrite (Forall2_len _ _ _ HR), Hk.
  destruct (negb _); [|reflexivity].
  rewrite (bind_st_Ok _ _ _ _ _ (attr_read h l a kernel_size Ha)).
  rewrite (bind_st_Ok _ _ _ _ _ (read_list_len h v vs Hvs)).
  by rewrite (Forall2_len _ _ _ HR), Hk.
Qed.

Lemma check_ic_weights_st_sim (v : val) (c : list (list float)) :
  read_channel h v = Some c ->
  check_ic_weights_st (VRef l) v h = (check_ic_weights L c, h).
Proof.
  intros Hc. destruct (read_channel_inv h v c Hc) as (vs & Hvs & HR).
  unfold check_ic_weights_st, check_ic_weights.
  rewrite (bind_st_Ok _ _ _ _ _ (read_list_len h v vs Hvs)).
  rewrite (bind_st_Ok _ _ _ _ _ (attr_read h l a kernel_size Ha)).
  rewrite (Forall2_len _ _ _ HR), Hk.
  destruct (negb _).
  - rewrite (bind_st_Ok _ _ _ _ _ (attr_read h l a kernel_size Ha)).
    rewrite (bind_st_Ok _ _ _ _ _ (read_list_len h v vs Hvs)).
    by rewrite (Forall2_len _ _ _ HR), Hk.
  - apply (for_st_sim _ h v vs c _ _ Hvs HR). intros v' r. apply check_k_row_st_sim.
Qed.

Lemma check_oc_weights_st_sim (v : val) (t : list (list (list float))) :
  read_tensor h v = Some t ->
  check_oc_weights_st (VRef l) v h = (check_oc_weights L t, h).
Proof.
  intros Ht. destruct (read_tensor_inv h v t Ht) as (vs & Hvs & HR).
  unfold check_oc_weights_st, check_oc_weights.
  rewrite (bind_st_Ok _ _ _ _ _ (read_list_len h v vs Hvs)).
  rewrite (bind_st_Ok _ _ _ _ _ (attr_read h l a input_channels Ha)).
  rewrite (Forall2_len _ _ _ HR), Hic.
  destruct (negb _).
  - rewrite (bind_st_Ok _ _ _ _ _ (attr_read h l a input_channels Ha)).
    rewrite (bind_st_Ok _ _ _ _ _ (read_list_len h v vs Hvs)).
    by rewrite (Forall2_len _ _ _ HR), Hic.
  - apply (for_st_sim _ h v vs t _ _ Hvs HR). intros v' c. apply check_ic_weights_st_sim.
Qed.

(** Lines 26-36 on the store do what they do on values, and write nothing. *)
Lemma validate_st_sim (w : weights) :
  read_weights h (kernel_weights a) = Some w ->
  validate_st (VRef l) h
  = (if negb (len w =? output_channels L)
     then Err (ValueError (OuterDimensionMismatch (output_channels L) (len w)))
     else forM_ (check_oc_weights L) w, h).
Proof.
  intros Hw. destruct (read_weights_inv h _ w Hw) as (vs & Hvs & HR).
  unfold validate_st.
  rewrite (bind_st_Ok _ _ _ _ _ (attr_read h l a kernel_weights Ha)).
  rewrite (bind_st_Ok _ _ _ _ _ (read_list_len h _ vs Hvs)).
  rewrite (bind_st_Ok _ _ _ _ _ (attr_read h l a output_channels Ha)).
  rewrite (Forall2_len _ _ _ HR), Hoc.
  destruct (negb _).
  - rewrite (bind_st_Ok _ _ _ _ _ (attr_read h l a output_channels Ha)).
    rewrite (bind_st_Ok _ _ _ _ _ (attr_read h l a kernel_weights Ha)).
    rewrite (bind_st_Ok _ _ _ _ _ (read_list_len h _ vs Hvs)).
    by rewrite (Forall2_len _ _ _ HR), Hoc.
  - rewrite (bind_st_Ok _ _ _ _ _ (attr_read h l a kernel_weights Ha)).
    apply (for_st_sim _ h _ vs w _ _ Hvs HR). intros v' t. apply check_oc_weights_st_sim.
Qed.
End init_st.

(** The constructor on the store returns what it returns on values; when it
    returns an engine, the store has grown by that one object, whose weights
    attribute is the reference that was passed in. *)
Lemma init_st_sim (h : heap) (k s p ic oc : Z) (wref : val) (w : weights) :
  read_weights h wref = Some w ->
  let a := {| kernel_size := k; stride := s; padding_mode := p;
              input_channels := ic; output_channels := oc; kernel_weights := wref |} in
  match __init__ k s p ic oc w with
  | Ok L => init_st k s p ic oc wref h = (Ok (VRef (length h)), h ++ [OLayer a])
  | Err e => exists k', init_st k s p ic oc wref h = (Err e, h ++ k')
  end.
Proof.
  intros Hw a.
  assert (Hnil : forall e, exists k', (Err e : result val, h) = (Err e, h ++ k')).
  { intros e. exists []. by rewrite app_nil_r. }
  destruct (read_weights_inv h wref w Hw) as (vs & Hvs & HR).
  unfold init_st, __init__.
  destruct (0 <? k); cbn [negb]; [|apply Hnil].
  destruct (0 <? s); cbn [negb]; [|apply Hnil].
  destruct ((p =? 0) || (p =? 1)); cbn [negb]; [|apply Hnil].
  destruct (0 <? ic); cbn [negb]; [|apply Hnil].
  destruct (0 <? oc); cbn [negb]; [|apply Hnil].
  rewrite (bind_st_Ok _ _ _ _ _ (read_list_truthy h wref vs Hvs)).
  assert (Htr : truthy vs = truthy w) by (destruct HR; reflexivity).
  rewrite Htr. destruct (truthy w); cbn [negb]; [|apply Hnil].
  rewrite (bind_st_Ok _ _ h (h ++ [OLayer a]) (VRef (length h)) eq_refl).
  set (L := {| kernel_size := k; stride := s; padding_mode := p;
               input_channels := ic; output_channels := oc; kernel_weights := w |}).
  assert (Hl : (h ++ [OLayer a]) !! length h = Some (OLayer a))
    by apply list_lookup_middle, eq_refl.
  pose proof (validate_st_sim (h ++ [OLayer a]) (length h) a L Hl eq_refl eq_refl eq_refl
                w (read_weights_app _ _ _ _ Hw)) as Hval.
  cbn [output_channels L] in Hval.
  destruct (negb (len w =? oc)); cbn [mbind result_bind].
  - rewrite (bind_st_Err _ _ _ _ _ Hval). by exists [OLayer a].
  - destruct (forM_ (check_oc_weights L) w) as [[]|e]; cbn [mbind result_bind].
    + rewrite (bind_st_Ok _ _ _ _ _ Hval). reflexivity.
    + rewrite (bind_st_Err _ _ _ _ _ Hval). by exists [OLayer a].
Qed.

(** ** Padding modes compared *)




(** *** Explicit zero padding *)





Section zero_pad.
Variables top bottom left right : Z.
Variable t : tensor.
Hypothesis Hrect : rectangular t.
Hypothesis Hne : tensor_empty t = false.
Hypothesis Htop : 0 <= top.
Hypothesis Hbottom : 0 <= bottom.
Hypothesis Hleft : 0 <= left.
Hypothesis Hright : 0 <= right.








End zero_pad.



(** * The claims *)

Ltac decide_by_computation := apply (bool_decide_unpack _); vm_compute; exact I.



(** C2. With padding mode VALID and an input whose height and width are at
    least [kernel_size], [forward] returns a tensor of shape
    [[output_channels][(H - k) // stride + 1][(W - k) // stride + 1]], computed
    with padding amount 0 on both axes. *)
Theorem valid_output_shape (self : ConvolutionLayer) (t : tensor) :
  constructed self -> padding_mode self = VALID ->
  rectangular t -> tensor_empty t = false -> len t = input_channels self ->
  kernel_size self <= height t -> kernel_size self <= width t ->
  exists lv out,
    derive_dims self (height t) (width t) = Ok lv /\
    padding_h lv = 0 /\ padding_w lv = 0 /\
    forward self t = Ok out /\
    out = conv self t lv /\
    has_shape (output_channels self)
              ((height t - kernel_size self) / stride self + 1)
              ((width t - kernel_size self) / stride self + 1) out.
Proof.
  intros Hc Hp Hrect Hne Hlen Hh Hw.
  destruct (constructed_invariants self Hc) as (_ & Hs & _ & _ & Hoc & _).
  pose proof (spec_output_dim_VALID_pos self (height t) Hs Hp Hh) as Hoh.
  pose proof (spec_output_dim_VALID_pos self (width t) Hs Hp Hw) as How.
  exists (spec_locals self (height t) (width t)), (conv self t (spec_locals self (height t) (width t))).
  split; [by apply derive_dims_spec|].
  split; [simpl; unfold spec_padding; rewrite Hp; reflexivity|].
  split; [simpl; unfold spec_padding; rewrite Hp; reflexivity|].
  split; [by apply forward_conv|].
  split; [reflexivity|].
  pose proof (has_shape_conv self t (spec_locals self (height t) (width t))) as Hsh.
  simpl in Hsh. unfold spec_output_dim in Hsh, Hoh, How. rewrite Hp in Hsh, Hoh, How.
  simpl in Hsh, Hoh, How. apply Hsh; lia.
Qed.

Lemma valid_output_shape_witness :
  exists lv out,
    derive_dims (Demo.layer 1 VALID) 4 4 = Ok lv /\
    padding_h lv = 0 /\ padding_w lv = 0 /\
    forward (Demo.layer 1 VALID) (Demo.ramp 3 4 4) = Ok out /\
    out = conv (Demo.layer 1 VALID) (Demo.ramp 3 4 4) lv /\
    has_shape 1 2 2 out.
Proof.
  apply (valid_output_shape (Demo.layer 1 VALID) (Demo.ramp 3 4 4)).
  - vm_compute. reflexivity.
  - reflexivity.
  - decide_by_computation.
  - reflexivity.
  - reflexivity.
  - vm_compute. discriminate.
  - vm_compute. discriminate.
Defined.





(** C10. With padding mode VALID and a rectangular input at least as large
    as the kernel, no sample is replaced by zero: both paddings are 0,
    [(output_dim - 1) * stride + kernel_size - 1 <= input_dim - 1] on each
    axis, and every index pair [(oh*stride + kh, ow*stride + kw)] that the
    loops visit lies in [[0, input_height) x [0, input_width)], so
    [pixel_value] returns the cell read from the input. *)
Theorem valid_window_in_bounds (self : ConvolutionLayer) (t : tensor) :
  constructed self -> padding_mode self = VALID ->
  rectangular t -> tensor_empty t = false -> len t = input_channels self ->
  kernel_size self <= height t -> kernel_size self <= width t ->
  exists lv,
    derive_dims self (height t) (width t) = Ok lv /\
    padding_h lv = 0 /\ padding_w lv = 0 /\
    (output_height lv - 1) * stride self + kernel_size self - 1 <= height t - 1 /\
    (output_width lv - 1) * stride self + kernel_size self - 1 <= width t - 1 /\
    forall ic oh ow kh kw,
      0 <= ic < input_channels self ->
      0 <= oh < output_height lv -> 0 <= ow < output_width lv ->
      0 <= kh < kernel_size self -> 0 <= kw < kernel_size self ->
      let h_idx := oh * stride self + kh - padding_h lv in
      let w_idx := ow * stride self + kw - padding_w lv in
      0 <= h_idx < height t /\ 0 <= w_idx < width t /\
      in_bounds (input_height lv) (input_width lv) h_idx w_idx = true /\
      exists x, cell t ic h_idx w_idx = Some x /\
                pixel_value t lv ic h_idx w_idx = Ok x.
Proof.
  intros Hc Hp Hrect Hne Hlen Hh Hw.
  destruct (constructed_invariants self Hc) as (Hk & Hs & _).
  exists (spec_locals self (height t) (width t)).
  assert (Hd : forall n, spec_output_dim self n = (n - kernel_size self) / stride self + 1).
  { intros n. unfold spec_output_dim. rewrite Hp. reflexivity. }
  assert (Hpad : forall n, spec_padding self n = 0).
  { intros n. unfold spec_padding. rewrite Hp. reflexivity. }
  assert (Hdiv : forall n, kernel_size self <= n ->
            ((n - kernel_size self) / stride self) * stride self <= n - kernel_size self).
  { intros n Hn. rewrite Z.mul_comm. apply Z.mul_div_le. lia. }
  split; [by apply derive_dims_spec|].
  cbn [padding_h padding_w output_height output_width input_height input_width spec_locals].
  rewrite !Hpad, !Hd.
  split; [reflexivity|]. split; [reflexivity|].
  split; [pose proof (Hdiv (height t) Hh); lia|].
  split; [pose proof (Hdiv (width t) Hw); lia|].
  intros ic oh ow kh kw Hic Hoh How Hkh Hkw.
  set (h_idx := oh * stride self + kh - 0).
  set (w_idx := ow * stride self + kw - 0).
  assert (Hhi : 0 <= h_idx < height t).
  { unfold h_idx. pose proof (Hdiv (height t) Hh). nia. }
  assert (Hwi : 0 <= w_idx < width t).
  { unfold w_idx. pose proof (Hdiv (width t) Hw). nia. }
  assert (Hin : in_bounds (height t) (width t) h_idx w_idx = true).
  { unfold in_bounds. rewrite !andb_true_iff, !Z.leb_le, !Z.ltb_lt. lia. }
  split; [exact Hhi|]. split; [exact Hwi|]. split; [exact Hin|].
  destruct (cell_in_range t ic h_idx w_idx) as [x Hx]; try assumption; [lia|].
  exists x. split; [exact Hx|].
  rewrite (pixel_value_sample self t) by (assumption || reflexivity).
  unfold sample. cbn [input_height input_width spec_locals].
  rewrite Hin. unfold at3. rewrite Hx. reflexivity.
Qed.

Lemma valid_window_in_bounds_witness :
  let self := Demo.layer 2 VALID in
  let t := Demo.ramp 3 6 7 in
  exists lv,
    derive_dims self (height t) (width t) = Ok lv /\
    padding_h lv = 0 /\ padding_w lv = 0 /\
    (output_height lv - 1) * stride self + kernel_size self - 1 <= height t - 1 /\
    (output_width lv - 1) * stride self + kernel_size self - 1 <= width t - 1 /\
    forall ic oh ow kh kw,
      0 <= ic < input_channels self ->
      0 <= oh < output_height lv -> 0 <= ow < output_width lv ->
      0 <= kh < kernel_size self -> 0 <= kw < kernel_size self ->
      let h_idx := oh * stride self + kh - padding_h lv in
      let w_idx := ow * stride self + kw - padding_w lv in
      0 <= h_idx < height t /\ 0 <= w_idx < width t /\
      in_bounds (input_height lv) (input_width lv) h_idx w_idx = true /\
      exists x, cell t ic h_idx w_idx = Some x /\
                pixel_value t lv ic h_idx w_idx = Ok x.
Proof.
  apply (valid_window_in_bounds (Demo.layer 2 VALID) (Demo.ramp 3 6 7)).
  - vm_compute. reflexivity.
  - reflexivity.
  - decide_by_computation.
  - reflexivity.
  - reflexivity.
  - vm_compute. discriminate.
  - vm_compute. discriminate.
Defined.




(** What a ragged input can do once it is past the checks. *)
Example ragged_input_IndexError :
  forward (Demo.pointwise [[[[1%float]]; [[1%float]]]]) [[[1; 2]; [3; 4]]; [[5]]]%float
  = Err IndexError.
Proof. vm_compute. reflexivity. Qed.

Example ragged_input_accepted :
  forward (Demo.pointwise [[[[1%float]]; [[1%float]]]]) [[[1]]; [[5; 6]; [7; 8]]]%float
  = Ok [[[6%float]]].
Proof. vm_compute. reflexivity. Qed.







(** C4, as the code has it. The constructor fails with a [ValueError] (the
    specification's ConfigError) and returns no engine exactly when an
    invariant of section 3 is violated; otherwise it returns the engine that
    holds its six arguments. In particular [kernel_size = 0], [padding_mode = 2]
    and an outer length of the weights other than [output_channels] fail.
    Validation stops at the first violation in the constructor's own order:
    kernel size, stride, padding mode, input channels, output channels,
    non-empty weights, outer length, then for each output channel its length
    and, for each of its input channels, the height and then each row's width. *)
Theorem init_reports_first_violation (k s p ic oc : Z) (w : weights) :
  let self := {| kernel_size := k; stride := s; padding_mode := p;
                 input_channels := ic; output_channels := oc; kernel_weights := w |} in
  (is_ValueError (__init__ k s p ic oc w) = true <-> ~ invariants k s p ic oc w) /\
  (__init__ k s p ic oc w = Ok self <-> invariants k s p ic oc w) /\
  __init__ k s p ic oc w = report self (violations k s p ic oc w) /\
  is_ValueError (__init__ 0 s p ic oc w) = true /\
  is_ValueError (__init__ k s 2 ic oc w) = true /\
  (len w <> oc -> is_ValueError (__init__ k s p ic oc w) = true).
Proof.
  intros self.
  assert (Hiff : violations k s p ic oc w = [] <-> invariants k s p ic oc w)
    by apply violations_nil.
  assert (Herr : forall k' p', ~ invariants k' s p' ic oc w ->
            is_ValueError (__init__ k' s p' ic oc w) = true).
  { intros k' p' Hn. rewrite init_report.
    destruct (violations k' s p' ic oc w) eqn:E; [|reflexivity].
    exfalso. apply Hn. by apply violations_nil. }
  split; [|split; [|split; [|split; [|split]]]].
  - split; [|apply Herr].
    rewrite init_report. intros H Hinv. apply Hiff in Hinv. rewrite Hinv in H.
    discriminate.
  - rewrite init_report. split.
    + intros H. apply Hiff. destruct (violations k s p ic oc w); [reflexivity|discriminate].
    + intros H. apply Hiff in H. rewrite H. reflexivity.
  - apply init_report.
  - apply Herr. unfold invariants. lia.
  - apply Herr. unfold invariants. lia.
  - intros Hl. apply Herr. unfold invariants, weights_shaped. tauto.
Qed.

(** C4, as stated, fails on the order: section 3 lists the positive sizes
    before the padding mode, the constructor tests the padding mode before
    the channel counts. *)
Lemma init_order_counterexample :
  let w := [[[[1%float]]]] in
  let self := {| kernel_size := 1; stride := 1; padding_mode := 2;
                 input_channels := 0; output_channels := 1; kernel_weights := w |} in
  __init__ 1 1 2 0 1 w = Err (ValueError PaddingModeNotZeroOrOne) /\
  report self (section3_violations 1 1 2 0 1 w) = Err (ValueError InputChannelsNotPositive).
Proof. split; reflexivity. Qed.

(** The weights are validated depth first, not level by level. *)
Example init_depth_first :
  let w := [[[[1; 2]%float]]; []] in
  __init__ 1 1 0 1 2 w = Err (ValueError (WidthDimensionMismatch 1 2)) /\
  section3_violations 1 1 0 1 2 w
  = [InputChannelsDimensionMismatch 1 0; WidthDimensionMismatch 1 2].
Proof. split; reflexivity. Qed.

(** C8. In a store that holds the engine and the input, a call of [forward]
    only appends objects: every object of the old store (the engine with its
    configuration, the lists of its kernel weights, the lists of the input)
    is unchanged, and the returned tensor lives at fresh addresses. A second
    call on the same engine and input returns a tensor equal to the first,
    which the second call leaves intact; a call that raises, raises the same
    exception again. *)
Theorem forward_no_side_effects (h : heap) (self inp : val)
    (L : ConvolutionLayer) (t : tensor) :
  read_layer h self = Some L -> read_tensor h inp = Some t ->
  exists r1 h1 r2 h2,
    forward_st self inp h = (r1, h1) /\
    forward_st self inp h1 = (r2, h2) /\
    (exists k1, h1 = h ++ k1) /\ (exists k2, h2 = h1 ++ k2) /\
    unchanged h h1 /\ unchanged h h2 /\
    read_layer h1 self = Some L /\ read_tensor h1 inp = Some t /\
    read_layer h2 self = Some L /\ read_tensor h2 inp = Some t /\
    match forward L t with
    | Ok out =>
        exists o1 o2,
          r1 = Ok (VRef o1) /\ r2 = Ok (VRef o2) /\
          (length h <= o1)%nat /\ (length h1 <= o2)%nat /\
          read_tensor h1 (VRef o1) = Some out /\
          read_tensor h2 (VRef o2) = Some out /\
          read_tensor h2 (VRef o1) = Some out
    | Err e => r1 = Err e /\ r2 = Err e
    end.
Proof.
  intros HL Ht.
  assert (Hun : forall k, unchanged h (h ++ k)).
  { intros k l o Hl. by apply lookup_app_l_Some. }
  pose proof (forward_st_sim h self inp L t HL Ht) as H1.
  destruct (forward L t) as [out|e] eqn:Hf.
  - set (h1 := h ++ tensor_objs (length h) out) in *.
    assert (HL1 : read_layer h1 self = Some L) by by apply read_layer_app.
    assert (Ht1 : read_tensor h1 inp = Some t) by by apply read_tensor_app.
    pose proof (forward_st_sim h1 self inp L t HL1 Ht1) as H2. rewrite Hf in H2.
    set (h2 := h1 ++ tensor_objs (length h1) out) in *.
    exists (Ok (VRef (tensor_loc (length h) out))), h1,
           (Ok (VRef (tensor_loc (length h1) out))), h2.
    split; [exact H1|]. split; [exact H2|].
    split; [by eexists|]. split; [by eexists|].
    split; [apply Hun|].
    split; [unfold h2, h1; rewrite <- app_assoc; apply Hun|].
    split; [exact HL1|]. split; [exact Ht1|].
    split; [by apply read_layer_app|]. split; [by apply read_tensor_app|].
    exists (tensor_loc (length h) out), (tensor_loc (length h1) out).
    split; [reflexivity|]. split; [reflexivity|].
    split; [unfold tensor_loc; lia|]. split; [unfold tensor_loc; lia|].
    assert (Hr1 : read_tensor h1 (VRef (tensor_loc (length h) out)) = Some out).
    { pose proof (read_tensor_objs h [] out) as Hr. by rewrite app_nil_r in Hr. }
    split; [exact Hr1|]. split.
    + pose proof (read_tensor_objs h1 [] out) as Hr. by rewrite app_nil_r in Hr.
    + by apply read_tensor_app.
  - destruct H1 as (k1 & H1).
    assert (HL1 : read_layer (h ++ k1) self = Some L) by by apply read_layer_app.
    assert (Ht1 : read_tensor (h ++ k1) inp = Some t) by by apply read_tensor_app.
    pose proof (forward_st_sim (h ++ k1) self inp L t HL1 Ht1) as H2. rewrite Hf in H2.
    destruct H2 as (k2 & H2).
    exists (Err e), (h ++ k1), (Err e), ((h ++ k1) ++ k2).
    split; [exact H1|]. split; [exact H2|].
    split; [by eexists|]. split; [by eexists|].
    split; [apply Hun|].
    split; [rewrite <- app_assoc; apply Hun|].
    split; [exact HL1|]. split; [exact Ht1|].
    split; [by apply read_layer_app|]. split; [by apply read_tensor_app|].
    by split.
Qed.

Lemma forward_no_side_effects_witness :
  exists r1 h1 r2 h2,
    forward_st Demo.self0 Demo.input0 Demo.heap0 = (r1, h1) /\
    forward_st Demo.self0 Demo.input0 h1 = (r2, h2) /\
    (exists k1, h1 = Demo.heap0 ++ k1) /\ (exists k2, h2 = h1 ++ k2) /\
    unchanged Demo.heap0 h1 /\ unchanged Demo.heap0 h2 /\
    read_layer h1 Demo.self0 = Some (Demo.layer 2 SAME) /\
    read_tensor h1 Demo.input0 = Some (Demo.ramp 3 5 5) /\
    read_layer h2 Demo.self0 = Some (Demo.layer 2 SAME) /\
    read_tensor h2 Demo.input0 = Some (Demo.ramp 3 5 5) /\
    match forward (Demo.layer 2 SAME) (Demo.ramp 3 5 5) with
    | Ok out =>
        exists o1 o2,
          r1 = Ok (VRef o1) /\ r2 = Ok (VRef o2) /\
          (length Demo.heap0 <= o1)%nat /\ (length h1 <= o2)%nat /\
          read_tensor h1 (VRef o1) = Some out /\
          read_tensor h2 (VRef o2) = Some out /\
          read_tensor h2 (VRef o1) = Some out
    | Err e => r1 = Err e /\ r2 = Err e
    end.
Proof.
  apply (forward_no_side_effects Demo.heap0 Demo.self0 Demo.input0
           (Demo.layer 2 SAME) (Demo.ramp 3 5 5)).
  - vm_compute. reflexivity.
  - vm_compute. reflexivity.
Defined.

(** The call of the demo, run in an empty store: the engine, the input and
    the output are allocated one after the other. *)
Example call_forward_demo :
  match call_forward (Demo.layer 2 SAME) (Demo.ramp 3 5 5) [] with
  | (Ok (s, i, o), h) =>
      s = Demo.self0 /\ i = Demo.input0 /\ o = VRef 38 /\ length h = 39%nat /\
      take 34 h = Demo.heap0 /\
      Ok <$> read_tensor h o = Some (forward (Demo.layer 2 SAME) (Demo.ramp 3 5 5))
  | (Err _, _) => False
  end.
Proof. vm_compute. repeat split; reflexivity. Qed.

(** ** The concrete scenarios of the specification *)

(** SAME padding, stride 2 on a 32 x 32 input: 16 x 16 cells, no padding. *)
Example scenario_same_stride_2 :
  derive_dims (Demo.layer 2 SAME) 32 32
  = Ok {| input_height := 32; input_width := 32; padding_h := 0; padding_w := 0;
          output_height := 16; output_width := 16 |}.
Proof. vm_compute. reflexivity. Qed.

(** VALID padding, stride 1, a 3 x 3 kernel on a 3 x 4 x 4 input: shape [1, 2, 2]. *)
Example scenario_valid_stride_1 :
  exists out, forward (Demo.layer 1 VALID) (Demo.ramp 3 4 4) = Ok out /\ has_shape 1 2 2 out.
Proof. eexists. split; [vm_compute; reflexivity | decide_by_computation]. Qed.

(** The identity kernel turns [-0.0] into [+0.0]: the sum starts at [+0.0]. *)
Example identity_kernel_negative_zero :
  forward (Demo.pointwise [[[[1%float]]]]) [[[(-0)%float]]] = Ok [[[0%float]]].
Proof. vm_compute. reflexivity. Qed.

(** * Further properties of the code *)

(** X1. With padding mode VALID, a non-empty input with the configured number
    of channels is rejected with the "output dimensions are non-positive"
    error exactly when its height or its width (read off the first channel
    and its first row) is smaller than the kernel size, whatever the stride
    and whether or not the input is rectangular. *)
Theorem valid_rejects_input_smaller_than_kernel (self : ConvolutionLayer) (t : tensor) :
  constructed self -> padding_mode self = VALID ->
  tensor_empty t = false -> len t = input_channels self ->
  forward self t = Err (ValueError OutputDimensionsNonPositive)
  <-> height t < kernel_size self \/ width t < kernel_size self.
Proof.
  intros Hc Hp Hne Hlen.
  destruct (constructed_invariants self Hc) as (_ & Hs & _).
  rewrite forward_unfold, Hne by assumption.
  replace (len t =? input_channels self) with true by (symmetry; by apply Z.eqb_eq).
  cbn [negb output_height output_width spec_locals].
  rewrite <- !(spec_output_dim_VALID_nonpos self) by assumption.
  destruct (_ || _) eqn:E.
  - split; [|done]. intros _. apply orb_true_iff in E.
    rewrite !Z.leb_le in E. exact E.
  - apply orb_false_iff in E. rewrite !Z.leb_gt in E. split; [|lia].
    intros H.
    pose proof (fill_at_most_IndexError self t
                  (spec_locals self (height t) (width t))
                  (zeros self (spec_locals self (height t) (width t)))) as Hf.
    rewrite H in Hf. discriminate.
Qed.

Lemma valid_rejects_input_smaller_than_kernel_witness :
  forward (Demo.layer 2 VALID) (Demo.ramp 3 2 7)
  = Err (ValueError OutputDimensionsNonPositive)
  <-> height (Demo.ramp 3 2 7) < kernel_size (Demo.layer 2 VALID)
      \/ width (Demo.ramp 3 2 7) < kernel_size (Demo.layer 2 VALID).
Proof.
  apply (valid_rejects_input_smaller_than_kernel (Demo.layer 2 VALID) (Demo.ramp 3 2 7)).
  - vm_compute. reflexivity.
  - reflexivity.
  - reflexivity.
  - reflexivity.
Defined.



(** X3. The padding amount that [_calculate_padding_amount] returns for the
    SAME output dimension [ceil(n / stride)] is never negative and never more
    than [(kernel_size - 1) // 2]; when the total padding of the axis is not
    negative, the part left for the far side is the same amount or one more;
    and for stride 1 the amount is exactly [(kernel_size - 1) // 2]. *)
Theorem same_padding_at_most_half_kernel (self : ConvolutionLayer) (n : Z) :
  0 < kernel_size self -> 0 < stride self ->
  let o := math_ceil (Qdiv (inject_Z n) (inject_Z (stride self))) in
  let total := (o - 1) * stride self + kernel_size self - n in
  let pad := _calculate_padding_amount self n o in
  0 <= pad <= (kernel_size self - 1) / 2 /\
  (0 <= total -> pad <= total - pad <= pad + 1) /\
  (stride self = 1 -> pad = (kernel_size self - 1) / 2).
Proof.
  intros Hk Hs o total pad.
  pose proof (same_total_padding self n Hs) as Ht. cbv zeta in Ht.
  fold o in Ht. fold total in Ht.
  assert (Hpad : pad = Z.max 0 (total / 2)) by apply calculate_padding_amount_spec.
  pose proof (Z.div_le_mono total (kernel_size self - 1) 2 ltac:(lia) ltac:(lia)) as Hle.
  pose proof (Z.div_pos (kernel_size self - 1) 2 ltac:(lia) ltac:(lia)) as Hhalf.
  pose proof (Z.div_mod total 2 ltac:(lia)) as Hdm.
  pose proof (Z.mod_pos_bound total 2 ltac:(lia)) as Hmod.
  split; [lia|]. split.
  - intros H0. pose proof (Z.div_pos total 2 H0 ltac:(lia)). lia.
  - intros H1. assert (total = kernel_size self - 1) by lia.
    subst pad. rewrite Hpad. replace total with (kernel_size self - 1). lia.
Qed.

Lemma same_padding_at_most_half_kernel_witness :
  let self := Demo.layer 2 SAME in
  let o := math_ceil (Qdiv (inject_Z 6) (inject_Z (stride self))) in
  let total := (o - 1) * stride self + kernel_size self - 6 in
  let pad := _calculate_padding_amount self 6 o in
  0 <= pad <= (kernel_size self - 1) / 2 /\
  (0 <= total -> pad <= total - pad <= pad + 1) /\
  (stride self = 1 -> pad = (kernel_size self - 1) / 2).
Proof.
  apply (same_padding_at_most_half_kernel (Demo.layer 2 SAME) 6).
  - reflexivity.
  - reflexivity.
Defined.

(** X4. With padding mode SAME no output cell is computed from padding alone:
    for every output position the window contains a row index and a column
    index inside the input, so the bounds test of line 91 passes for at least
    one tap. *)
Theorem same_window_meets_input (self : ConvolutionLayer) (H W : Z) (lv : locals) :
  0 < kernel_size self -> 0 < stride self -> padding_mode self = SAME ->
  0 < H -> 0 < W ->
  derive_dims self H W = Ok lv ->
  forall oh ow, 0 <= oh < output_height lv -> 0 <= ow < output_width lv ->
  exists kh kw,
    0 <= kh < kernel_size self /\ 0 <= kw < kernel_size self /\
    in_bounds H W (oh * stride self + kh - padding_h lv)
                  (ow * stride self + kw - padding_w lv) = true.
Proof.
  intros Hk Hs Hp HH HW Hd oh ow Hoh How.
  destruct (derive_dims_SAME self H W lv Hs Hp Hd) as (Eoh & Eow & Eph & Epw).
  assert (Haxis : forall n o, 0 < n ->
            0 <= o < math_ceil (Qdiv (inject_Z n) (inject_Z (stride self))) ->
            exists k, 0 <= k < kernel_size self /\
              0 <= o * stride self + k
                   - _calculate_padding_amount self n
                       (math_ceil (Qdiv (inject_Z n) (inject_Z (stride self)))) < n).
  { intros n o Hn Ho.
    pose proof (same_padding_at_most_half_kernel self n Hk Hs) as (Hb & _ & _).
    pose proof (Qceiling_div n (stride self) Hs) as Hc. simpl in Hc.
    fold (math_ceil (Qdiv (inject_Z n) (inject_Z (stride self)))) in Hc.
    set (c := math_ceil (Qdiv (inject_Z n) (inject_Z (stride self)))) in *.
    set (pad := _calculate_padding_amount self n c) in *.
    assert (Hhalf : (kernel_size self - 1) / 2 <= kernel_size self - 1).
    { pose proof (Z.div_mod (kernel_size self - 1) 2 ltac:(lia)).
      pose proof (Z.mod_pos_bound (kernel_size self - 1) 2 ltac:(lia)). lia. }
    assert (o * stride self <= (c - 1) * stride self) by nia.
    destruct (Z.le_gt_cases pad (o * stride self)) as [Hle|Hgt].
    - exists 0. lia.
    - exists (pad - o * stride self). nia. }
  rewrite Eoh in Hoh. rewrite Eow in How.
  destruct (Haxis H oh HH Hoh) as (kh & Hkh & Hh).
  destruct (Haxis W ow HW How) as (kw & Hkw & Hw).
  exists kh, kw. split; [exact Hkh|]. split; [exact Hkw|].
  rewrite Eph, Epw. unfold in_bounds.
  rewrite !andb_true_iff, !Z.leb_le, !Z.ltb_lt. lia.
Qed.

Lemma same_window_meets_input_witness :
  let self := Demo.layer 2 SAME in
  let lv := {| input_height := 5; input_width := 4; padding_h := 1; padding_w := 0;
               output_height := 3; output_width := 2 |} in
  exists kh kw,
    0 <= kh < kernel_size self /\ 0 <= kw < kernel_size self /\
    in_bounds 5 4 (2 * stride self + kh - padding_h lv)
                  (1 * stride self + kw - padding_w lv) = true.
Proof.
  apply (same_window_meets_input (Demo.layer 2 SAME) 5 4
           {| input_height := 5; input_width := 4; padding_h := 1; padding_w := 0;
              output_height := 3; output_width := 2 |}).
  - reflexivity.
  - reflexivity.
  - reflexivity.
  - reflexivity.
  - reflexivity.
  - vm_compute. reflexivity.
  - simpl. lia.
  - simpl. lia.
Defined.

(** X5. With padding mode VALID, striding only subsamples: the cell
    [[oc][oh][ow]] of the output for stride [s] is, bit for bit, the cell
    [[oc][oh*s][ow*s]] of the output that the same engine gives with
    stride 1, because the loop nest adds the same terms in the same order. *)
Theorem valid_stride_subsamples (self : ConvolutionLayer) (t : tensor) :
  constructed self -> padding_mode self = VALID ->
  rectangular t -> tensor_empty t = false -> len t = input_channels self ->
  kernel_size self <= height t -> kernel_size self <= width t ->
  exists out out1,
    forward self t = Ok out /\
    forward (with_stride 1 self) t = Ok out1 /\
    forall oc oh ow,
      0 <= oc < output_channels self ->
      0 <= oh < (height t - kernel_size self) / stride self + 1 ->
      0 <= ow < (width t - kernel_size self) / stride self + 1 ->
      is_Some (cell out oc oh ow) /\
      cell out oc oh ow = cell out1 oc (oh * stride self) (ow * stride self).
Proof.
  intros Hc Hp Hrect Hne Hlen Hh Hw.
  pose proof (constructed_invariants self Hc) as Hinv.
  destruct Hinv as (Hk & Hs & Hpm & Hic & Hoc & Hws).
  assert (Hc1 : constructed (with_stride 1 self)).
  { apply invariants_constructed. unfold invariants, with_stride. simpl.
    repeat split; try assumption; try lia; apply Hws. }
  assert (Hd : forall n, spec_output_dim self n = (n - kernel_size self) / stride self + 1).
  { intros n. unfold spec_output_dim. rewrite Hp. reflexivity. }
  assert (Hd1 : forall n, spec_output_dim (with_stride 1 self) n = n - kernel_size self + 1).
  { intros n. unfold spec_output_dim, with_stride. simpl. rewrite Hp. simpl.
    rewrite Z.div_1_r. reflexivity. }
  assert (Hpad : forall n, spec_padding self n = 0).
  { intros n. unfold spec_padding. rewrite Hp. reflexivity. }
  assert (Hpad1 : forall n, spec_padding (with_stride 1 self) n = 0).
  { intros n. unfold spec_padding, with_stride. simpl. rewrite Hp. reflexivity. }
  assert (Hpos : forall n, kernel_size self <= n -> 0 < spec_output_dim self n).
  { intros n Hn. by apply spec_output_dim_VALID_pos. }
  assert (Hsub : forall n o, 0 <= o < (n - kernel_size self) / stride self + 1 ->
            0 <= o * stride self < n - kernel_size self + 1).
  { intros n o Ho.
    assert (o <= (n - kernel_size self) / stride self) by lia.
    pose proof (Z.mul_div_le (n - kernel_size self) (stride self) Hs).
    nia. }
  exists (conv self t (spec_locals self (height t) (width t))),
         (conv (with_stride 1 self) t
               (spec_locals (with_stride 1 self) (height t) (width t))).
  split; [apply forward_conv; auto|].
  split; [apply forward_conv; try assumption; rewrite Hd1; lia|].
  intros oc oh ow Hoc0 Hoh0 How0.
  rewrite cell_conv by (simpl; rewrite ?Hd; assumption).
  rewrite cell_conv by (simpl; rewrite ?Hd1; auto).
  split; [eauto|]. f_equal.
  unfold conv_sum. simpl.
  change (window (with_stride 1 self)) with (window self).
  apply fold_left_ext_in. intros acc [[ic kh] kw] _.
  unfold term. simpl. rewrite !Hpad, !Hpad1.
  replace (oh * stride self * 1) with (oh * stride self) by lia.
  replace (ow * stride self * 1) with (ow * stride self) by lia.
  reflexivity.
Qed.

Lemma valid_stride_subsamples_witness :
  let self := Demo.layer 2 VALID in
  let t := Demo.ramp 3 6 7 in
  exists out out1,
    forward self t = Ok out /\
    forward (with_stride 1 self) t = Ok out1 /\
    forall oc oh ow,
      0 <= oc < output_channels self ->
      0 <= oh < (height t - kernel_size self) / stride self + 1 ->
      0 <= ow < (width t - kernel_size self) / stride self + 1 ->
      is_Some (cell out oc oh ow) /\
      cell out oc oh ow = cell out1 oc (oh * stride self) (ow * stride self).
Proof.
  apply (valid_stride_subsamples (Demo.layer 2 VALID) (Demo.ramp 3 6 7)).
  - vm_compute. reflexivity.
  - reflexivity.
  - decide_by_computation.
  - reflexivity.
  - reflexivity.
  - vm_compute. discriminate.
  - vm_compute. discriminate.
Defined.



(** X7. Whatever [forward] returns has the announced shape, also on an input
    that is not rectangular: on an engine that the constructor returned, a
    returned tensor has [output_channels] channels, each of the output height
    and width derived from the first input channel and its first row, and
    both of these are positive. *)
Theorem forward_output_well_shaped (self : ConvolutionLayer) (t out : tensor) :
  constructed self -> forward self t = Ok out ->
  0 < spec_output_dim self (height t) /\ 0 < spec_output_dim self (width t) /\
  has_shape (output_channels self) (spec_output_dim self (height t))
            (spec_output_dim self (width t)) out.
Proof.
  intros Hc. rewrite forward_unfold by assumption. cbv zeta.
  destruct (constructed_invariants self Hc) as (_ & _ & _ & _ & Hoc & _).
  destruct (tensor_empty t); [discriminate|].
  destruct (negb _); [discriminate|].
  cbn [output_height output_width spec_locals].
  destruct (_ || _) eqn:E; [discriminate|].
  apply orb_false_iff in E. rewrite !Z.leb_gt in E. destruct E as [Hoh How].
  intros Hf. split; [exact Hoh|]. split; [exact How|].
  apply (foldM_invariant
           (has_shape (output_channels self) (spec_output_dim self (height t))
                      (spec_output_dim self (width t))) _ _ _ _) in Hf;
    [exact Hf| |].
  - intros o1 oc o1' H1.
    apply (foldM_invariant (has_shape _ _ _)); [|exact H1]. intros o2 oh o2' H2.
    apply (foldM_invariant (has_shape _ _ _)); [|exact H2]. intros o3 ow o3' H3.
    destruct (cell_sum _ _ _ oc oh ow) as [v|e]; simpl; [|discriminate].
    by apply store_has_shape.
  - apply (zeros_has_shape self (spec_locals self (height t) (width t))); simpl; lia.
Qed.

Lemma forward_output_well_shaped_witness :
  let self := Demo.pointwise [[[[1%float]]; [[1%float]]]] in
  let t := [[[1]]; [[5; 6]; [7; 8]]]%float in
  0 < spec_output_dim self (height t) /\ 0 < spec_output_dim self (width t) /\
  has_shape (output_channels self) (spec_output_dim self (height t))
            (spec_output_dim self (width t)) [[[6%float]]].
Proof.
  apply (forward_output_well_shaped
           (Demo.pointwise [[[[1%float]]; [[1%float]]]])
           [[[1]]; [[5; 6]; [7; 8]]]%float [[[6%float]]]).
  - vm_compute. reflexivity.
  - vm_compute. reflexivity.
Defined.





(** X10. [print_image_py] never raises, whatever list of lists of lists of
    floats it is given (no channel, empty channels, empty rows, ragged rows):
    the two indexings of lines 105-106 are guarded. It writes every cell of
    the image exactly once, in row-major order and in the format [8.2f], and
    nothing else as a number in that format; it writes one header line, two
    lines per channel and one line per row; and for an image without channels
    it writes the single line "<label> is empty.". *)
Theorem print_image_py_writes_every_cell (image : tensor) (label : str) :
  exists out,
    print_image_py image label = Ok out /\
    formatted out = formatted label ++ ((fun x => (8, 2, x)) <$> flatten image) /\
    lines out = lines label + 1 + 2 * len image + len (mjoin image) /\
    (image = [] -> out = label ++ [Text " is empty."; Newline]).
Proof.
  destruct image as [|c0 t'].
  - eexists. split; [reflexivity|]. unfold print.
    rewrite !formatted_app, !lines_app. cbn [fmap list_fmap flatten mjoin list_join].
    change (formatted [Text " is empty."]) with (@nil (Z * Z * float)).
    change (formatted [Newline]) with (@nil (Z * Z * float)).
    split; [by rewrite !app_nil_r|]. split; [|intros _; by rewrite <- app_assoc].
    change (lines [Text " is empty."]) with 0. change (lines [Newline]) with 1.
    change (len []) with 0. change (len (@nil channel)) with 0. lia.
  - eexists. split; [by apply print_image_py_nonempty|]. unfold print.
    rewrite !formatted_app, !lines_app, formatted_body, lines_body.
    split; [|split; [|discriminate]].
    + rewrite <- !app_assoc. reflexivity.
    + match goal with |- context [lines (Text ?a :: ?l)] =>
        change (lines (Text a :: l)) with 0 end.
      change (lines [Newline]) with 1. lia.
Qed.

(** X11. Printing what [forward] returned. For an engine that the
    constructor returned and any input on which [forward] returns, the header
    written by [print_image_py] shows the engine's [output_channels] and the
    output height and width, no "Empty channel." or "Empty row." message is
    written, [output_channels * output_height * output_width] numbers follow
    the header, on [output_channels * (output_height + 2)] lines. *)
Theorem print_forward_output (self : ConvolutionLayer) (t out : tensor) (label : str) :
  constructed self -> forward self t = Ok out ->
  let OC := output_channels self in
  let OH := spec_output_dim self (height t) in
  let OW := spec_output_dim self (width t) in
  exists body,
    print_image_py out label
    = Ok (print (label ++ [Text " (Channels: "; Int OC; Text ", Height: "; Int OH;
                           Text ", Width: "; Int OW; Text ")"]) ++ body) /\
    Forall (fun s => s ∈ ["Channel "; ":"; "  "]%string) (texts body) /\
    len (formatted body) = OC * OH * OW /\
    lines body = OC * (OH + 2).
Proof.
  intros Hc Hf OC OH OW.
  destruct (constructed_invariants self Hc) as (_ & _ & _ & _ & Hoc & _).
  destruct (forward_Ok_has_shape self t out Hc Hf) as (Hoh & How & Hshape).
  fold OC in Hoc, Hshape. fold OH in Hoh, Hshape. fold OW in How, Hshape.
  destruct (len_flatten _ _ _ _ Hshape) as [Hrows Hcells].
  destruct Hshape as [Hl Hall].
  assert (Hne : out <> []) by (intros ->; unfold len in Hl; simpl in Hl; lia).
  assert (Hh : height out = OH).
  { destruct out as [|c0 out']; [done|]. simpl.
    by destruct (Forall_inv Hall) as [H0 _]. }
  assert (Hw : width out = OW).
  { destruct out as [|c0 out']; [done|].
    destruct (Forall_inv Hall) as [H0 Hr].
    destruct c0 as [|r0 c0]; [unfold len in H0; simpl in H0; lia|].
    simpl. exact (Forall_inv Hr). }
  eexists. rewrite print_image_py_nonempty, Hl, Hh, Hw by assumption.
  split; [reflexivity|]. split; [|split].
  - apply texts_body. eapply Forall_impl; [exact Hall|].
    intros ch [Hch Hr]. simpl. split; [lia|].
    eapply Forall_impl; [exact Hr|]. simpl. intros r ->. exact How.
  - rewrite formatted_body, len_fmap. exact Hcells.
  - rewrite lines_body, Hl, Hrows. lia.
Qed.

Lemma print_forward_output_witness :
  let self := Demo.pointwise [[[[1%float]]; [[1%float]]]] in
  let t := [[[1; 2]]; [[5; 6]; [7; 8]]]%float in
  let out := [[[6; 8]]]%float in
  let label := [Text "Output Image (Padding "; Int 0; Text ", Stride "; Int 1; Text ")"] in
  let OC := output_channels self in
  let OH := spec_output_dim self (height t) in
  let OW := spec_output_dim self (width t) in
  exists body,
    print_image_py out label
    = Ok (print (label ++ [Text " (Channels: "; Int OC; Text ", Height: "; Int OH;
                           Text ", Width: "; Int OW; Text ")"]) ++ body) /\
    Forall (fun s => s ∈ ["Channel "; ":"; "  "]%string) (texts body) /\
    len (formatted body) = OC * OH * OW /\
    lines body = OC * (OH + 2).
Proof.
  apply (print_forward_output
           (Demo.pointwise [[[[1%float]]; [[1%float]]]])
           [[[1; 2]]; [[5; 6]; [7; 8]]]%float [[[6; 8]]]%float
           [Text "Output Image (Padding "; Int 0; Text ", Stride "; Int 1; Text ")"]).
  - vm_compute. reflexivity.
  - vm_compute. reflexivity.
Defined.

(** X12. The weights that the demo builds (lines 141-155: an averaging
    kernel, with the centre tap written over [kernel_weights[0][1]] when
    there are at least two input channels and the kernel size is 3) are
    accepted by the constructor for every positive kernel size and channel
    counts, with either padding mode and any positive stride: the assignment
    of line 151 never raises, because of the guard of line 150, and it keeps
    the shape [[oc][ic][k][k]]. ([KERNEL_SIZE * KERNEL_SIZE] is taken below
    [2^63], the range in which the conversion to a float is modelled.) *)
Theorem demo_weights_accepted (K S P IC OC : Z) :
  0 < K -> K * K < 2 ^ 63 -> 0 < S -> P = 0 \/ P = 1 -> 0 < IC -> 0 < OC ->
  exists avg_kernel_val kernel_weights,
    float_truediv 1 (K * K) = Ok avg_kernel_val /\
    Main.centre_tap K IC OC (Main.averaging K IC OC avg_kernel_val) = Ok kernel_weights /\
    __init__ K S P IC OC kernel_weights
    = Ok {| kernel_size := K; stride := S; padding_mode := P;
            input_channels := IC; output_channels := OC;
            kernel_weights := kernel_weights |}.
Proof.
  intros HK _ HS HP HIC HOC. unfold float_truediv.
  replace (K * K =? 0) with false by (symmetry; apply Z.eqb_neq; nia).
  eexists.
  destruct (centre_tap_Ok K IC OC (1 / float_of_int (K * K))%float) as (w & Hw & Hshape).
  exists w. split; [reflexivity|]. split; [exact Hw|].
  apply (invariants_constructed
           {| kernel_size := K; stride := S; padding_mode := P;
              input_channels := IC; output_channels := OC; kernel_weights := w |}).
  unfold invariants. simpl. repeat split; try assumption. all: apply Hshape; assumption.
Qed.

Lemma demo_weights_accepted_witness :
  exists avg_kernel_val kernel_weights,
    float_truediv 1 (3 * 3) = Ok avg_kernel_val /\
    Main.centre_tap 3 3 1 (Main.averaging 3 3 1 avg_kernel_val) = Ok kernel_weights /\
    __init__ 3 2 1 3 1 kernel_weights
    = Ok {| kernel_size := 3; stride := 2; padding_mode := 1;
            input_channels := 3; output_channels := 1;
            kernel_weights := kernel_weights |}.
Proof.
  apply (demo_weights_accepted 3 2 1 3 1).
  - lia.
  - reflexivity.
  - lia.
  - right. reflexivity.
  - lia.
  - lia.
Defined.




(** X15. The tensor that [forward] returns shares no list with the engine,
    with the input or with itself: every row and every channel built by the
    comprehensions of lines 75-78 is a list object of its own. In the object
    store, a later assignment [output[oc][oh][ow] = v] by the caller changes
    that one cell of the returned tensor (it reads back as the value-level
    update) and leaves the engine, the input and every object that was there
    before the call as they were. *)
Theorem returned_tensor_is_independent (h : heap) (self inp : val)
    (L : ConvolutionLayer) (t out out' : tensor) (oc oh ow : Z) (v : float) :
  read_layer h self = Some L -> read_tensor h inp = Some t ->
  forward L t = Ok out -> store out oc oh ow v = Ok out' ->
  exists o h1 h2,
    forward_st self inp h = (Ok o, h1) /\
    store_st o oc oh ow v h1 = (Ok tt, h2) /\
    read_tensor h2 o = Some out' /\
    read_layer h2 self = Some L /\ read_tensor h2 inp = Some t /\
    unchanged h h2.
Proof.
  intros HL Ht Hf Hst.
  pose proof (forward_st_sim h self inp L t HL Ht) as Hsim. rewrite Hf in Hsim.
  destruct (store_st_sim h [] out oc oh ow v) as [Hw Hlen].
  rewrite Hst in Hw. specialize (Hlen out' Hst).
  rewrite !app_nil_r in Hw.
  exists (VRef (tensor_loc (length h) out)), (h ++ tensor_objs (length h) out),
         (h ++ tensor_objs (length h) out').
  split; [exact Hsim|]. split; [exact Hw|]. split; [|split; [|split]].
  - pose proof (read_tensor_objs h [] out') as Hr. rewrite app_nil_r in Hr.
    unfold tensor_loc in Hr |- *. rewrite Hlen in Hr. exact Hr.
  - by apply read_layer_app.
  - by apply read_tensor_app.
  - intros l o Hl. by apply lookup_app_l_Some.
Qed.

Lemma returned_tensor_is_independent_witness :
  let out := match forward (Demo.layer 2 SAME) (Demo.ramp 3 5 5) with
             | Ok out => out | Err _ => [] end in
  let out' := match store out 0 (-1) 1 7 with Ok out' => out' | Err _ => [] end in
  exists o h1 h2,
    forward_st Demo.self0 Demo.input0 Demo.heap0 = (Ok o, h1) /\
    store_st o 0 (-1) 1 7 h1 = (Ok tt, h2) /\
    read_tensor h2 o = Some out' /\
    read_layer h2 Demo.self0 = Some (Demo.layer 2 SAME) /\
    read_tensor h2 Demo.input0 = Some (Demo.ramp 3 5 5) /\
    unchanged Demo.heap0 h2.
Proof.
  intros out out'.
  apply (returned_tensor_is_independent Demo.heap0 Demo.self0 Demo.input0
           (Demo.layer 2 SAME) (Demo.ramp 3 5 5) out out' 0 (-1) 1 7).
  - vm_compute. reflexivity.
  - vm_compute. reflexivity.
  - vm_compute. reflexivity.
  - vm_compute. reflexivity.
Defined.

(** X16. The constructor keeps the caller's weights by reference and copies
    nothing. On the object store, when the nested list behind
    [initial_kernel_weights] reads as [w], the call returns what
    [__init__] returns on [w]; when it returns an engine, the store has grown
    by exactly one object, the engine, whose [kernel_weights] attribute is the
    reference that was passed in. So after a later assignment
    [initial_kernel_weights[i] = x] by the caller, the engine's weights are
    whatever that list then holds, without a new validation. When the
    constructor raises, every object that was in the store is unchanged. *)
Theorem constructor_keeps_callers_weights (h : heap) (k s p ic oc : Z)
    (wref : val) (w : weights) :
  read_weights h wref = Some w ->
  match __init__ k s p ic oc w with
  | Ok L =>
      exists self h1,
        init_st k s p ic oc wref h = (Ok self, h1) /\
        h1 = h ++ [OLayer {| kernel_size := k; stride := s; padding_mode := p;
                             input_channels := ic; output_channels := oc;
                             kernel_weights := wref |}] /\
        read_layer h1 self = Some L /\
        forall i x h2,
          setitem_st wref i x h1 = (Ok tt, h2) ->
          attr self kernel_weights h2 = (Ok wref, h2) /\
          read_layer h2 self
          = (ws ← read_weights h2 wref;
             Some {| kernel_size := k; stride := s; padding_mode := p;
                     input_channels := ic; output_channels := oc;
                     kernel_weights := ws |})
  | Err e => exists h1, init_st k s p ic oc wref h = (Err e, h1) /\ unchanged h h1
  end.
Proof.
  intros Hw. pose proof (init_st_sim h k s p ic oc wref w Hw) as Hsim.
  cbv zeta in Hsim.
  set (a := {| kernel_size := k; stride := s; padding_mode := p;
               input_channels := ic; output_channels := oc;
               kernel_weights := wref |}) in *.
  destruct (init_outcome k s p ic oc w)
    as [(L & HL & _ & HLk & HLs & HLp & HLic & HLoc & HLw)|(m & Hm)].
  2:{ rewrite Hm in Hsim |- *. destruct Hsim as (k' & Hk').
      exists (h ++ k'). split; [exact Hk'|].
      intros l o Hl. by apply lookup_app_l_Some. }
  rewrite HL in Hsim |- *.
  assert (Hl : (h ++ [OLayer a]) !! length h = Some (OLayer a))
    by apply list_lookup_middle, eq_refl.
  exists (VRef (length h)), (h ++ [OLayer a]).
  split; [exact Hsim|]. split; [reflexivity|]. split.
  - unfold read_layer. rewrite Hl. cbn [kernel_weights a].
    rewrite (read_weights_app _ _ _ _ Hw). cbn [mbind option_bind].
    destruct L. cbn in HLk, HLs, HLp, HLic, HLoc, HLw. by subst.
  - intros i x h2 Hset.
    destruct (read_weights_inv h wref w Hw) as (vs & Hvs & _).
    destruct wref as [y|lw]; [discriminate|].
    assert (Hlw : h !! lw = Some (OList vs)).
    { unfold read_list in Hvs. destruct (h !! lw) as [[vs'|a']|]; try discriminate.
      by injection Hvs as ->. }
    assert (Hlt : (lw < length h)%nat) by (apply lookup_lt_is_Some; eauto).
    unfold setitem_st in Hset.
    rewrite (bind_st_Ok _ _ _ _ _
               (read_list_deref _ _ _ (read_list_app h [OLayer a] _ _ Hvs))) in Hset.
    unfold lift in Hset. unfold mbind at 1, M_bind at 1 in Hset.
    destruct (setitem vs i x) as [vs'|e]; [|discriminate].
    unfold write in Hset. injection Hset as <-.
    assert (Hl2 : <[lw := OList vs']> (h ++ [OLayer a]) !! length h = Some (OLayer a)).
    { rewrite list_lookup_insert_ne by lia. exact Hl. }
    split.
    + exact (attr_read _ _ a kernel_weights Hl2).
    + unfold read_layer. rewrite Hl2. reflexivity.
Qed.

Lemma constructor_keeps_callers_weights_witness :
  let h := snd (alloc_weights Demo.kernel []) in
  match __init__ 3 2 1 3 1 Demo.kernel with
  | Ok L =>
      exists self h1,
        init_st 3 2 1 3 1 (VRef 13) h = (Ok self, h1) /\
        h1 = h ++ [OLayer {| kernel_size := 3; stride := 2; padding_mode := 1;
                             input_channels := 3; output_channels := 1;
                             kernel_weights := VRef 13 |}] /\
        read_layer h1 self = Some L /\
        forall i x h2,
          setitem_st (VRef 13) i x h1 = (Ok tt, h2) ->
          attr self kernel_weights h2 = (Ok (VRef 13), h2) /\
          read_layer h2 self
          = (ws ← read_weights h2 (VRef 13);
             Some {| kernel_size := 3; stride := 2; padding_mode := 1;
                     input_channels := 3; output_channels := 1;
                     kernel_weights := ws |})
  | Err e => exists h1, init_st 3 2 1 3 1 (VRef 13) h = (Err e, h1) /\ unchanged h h1
  end.
Proof.
  intros h.
  apply (constructor_keeps_callers_weights h 3 2 1 3 1 (VRef 13) Demo.kernel).
  vm_compute. reflexivity.
Defined.

(** What the caller can do to an engine afterwards: once
    [initial_kernel_weights[0][0] = []] has been run through the caller's
    reference, the engine that was validated fails in [forward] with an
    [IndexError]. *)
Example weights_changed_after_construction :
  let h := snd (alloc_weights Demo.kernel []) in
  let first_call :=
    self ← init_st 3 1 0 3 1 (VRef 13);
    inp ← alloc_tensor (Demo.ramp 3 4 4);
    out ← forward_st self inp;
    mret (self, inp) in
  let second_call :=
    '(self, inp) ← first_call;
    e ← alloc [];
    w0 ← getitem_st (VRef 13) 0;
    _ ← setitem_st w0 0 e;
    forward_st self inp in
  is_Ok (fst (first_call h)) = true /\
  fst (second_call h) = Err IndexError.
Proof. vm_compute. split; reflexivity. Qed.




